(** * The call/response protocol of package [rpc] (duplex RPC)

    A shallow embedding of the server-side [responder] (Return, Continue,
    Send and the shared [respond] algorithm), of the accessors of the
    client-side [Response], of [Call.Receive] and of the streaming adapter
    [ReceiveNotify], and of the handlers [Unary], [Stream] and [Error] of the
    interop service built on them, followed by the properties the
    specification states about them and by further properties read off the
    code.

    The value codec and the multiplexed channel are interfaces implemented
    outside the package.  They are modelled at the level of values: a
    channel keeps the chronological log of the operations performed on it,
    and an oracle on the channel decides which operations fail, so that every
    theorem quantified over the oracle holds for every transport behaviour. *)

From Stdlib Require Import String List Bool Arith ZArith Lia.
Import ListNotations.

Module rpc.

Local Open Scope string_scope.
Local Open Scope list_scope.

(** ** Go values *)

(** A Go [error] value.  Only the result of its [Error()] method matters to
    the protocol, and the method is taken to return; [errors_New] is
    [errors.New]. *)
Record goerror : Type := errors_New { Error : string }.

(** [ResponseHeader] is the value encoded over the channel to indicate a
    response: [E] is the optional error message ([*string]), [C] the
    continue flag. *)
Record ResponseHeader : Type := Build_ResponseHeader { E : option string; C : bool }.

(** [CallHeader] is the first value encoded over the channel to make a call.
    The field is [S] in the source, a name that belongs to the successor of
    [nat] here. *)
Record CallHeader : Type := Build_CallHeader { CallHeader_S : string }.

(** The dynamically typed values ([any]) a handler can pass to the
    responder.  [Nil] is the nil interface value; [ErrorValue] stands for
    every value whose dynamic type implements [error]; [HeaderValue] is a
    [*ResponseHeader], read when it is encoded. *)
Inductive any : Type :=
| Nil
| ErrorValue (e : goerror)
| StringValue (s : string)
| IntValue (n : Z)
| BoolValue (b : bool)
| BytesValue (b : list Byte.byte)
| HeaderValue (h : ResponseHeader).

(** The type assertion [e, ok = v.(error)]: on failure [e] is the zero value
    of [error], the nil interface. *)
Definition assert_error (v : any) : option goerror * bool :=
  match v with
  | ErrorValue e => (Some e, true)
  | _ => (None, false)
  end.

(** ** The codec and the channel *)

(** The static type of the variable a decode target points to. *)
Inductive gotype : Type := TAny | TString | TInt | TBool | TBytes | THeader.

(** Modelled from the spec: the value codec's decoder ([codec.Decoder], not
    part of the package).  It "decodes the next value from the channel":
    [input i ty] is the outcome of decoding the [i]-th incoming item into a
    target of type [ty] (a value, or the decode or transport error); every
    call of [Decode] consumes one item.  [calls] records the targets the
    decoder was handed. *)
Record codec_Decoder : Type := Build_Decoder {
  input : nat -> gotype -> goerror + any;
  rpos  : nat;
  calls : list gotype
}.

Definition Decode (ty : gotype) (d : codec_Decoder) : (goerror + any) * codec_Decoder :=
  (input d (rpos d) ty,
   {| input := input d; rpos := 1 + rpos d; calls := calls d ++ [ty] |}).

(** What happened on the write side of a channel: a value was handed to the
    encoder, or the channel was closed; each with the error it returned. *)
Inductive event : Type :=
| Encoded (v : any) (res : option goerror)
| Closed (res : option goerror).

(** A [mux.Channel] together with the codec bound to it.  [log] is the
    history of write-side operations, oldest first; [faults k] is the error,
    if any, of the operation performed when [k] operations are already in the
    log; [rd] is the read side. *)
Record mux_Channel : Type := Build_Channel {
  log    : list event;
  faults : nat -> option goerror;
  rd     : codec_Decoder
}.

Definition record (ev : event) (ch : mux_Channel) : mux_Channel :=
  {| log := log ch ++ [ev]; faults := faults ch; rd := rd ch |}.

(** [c.Encoder(ch).Encode(v)] *)
Definition Encode (v : any) (ch : mux_Channel) : option goerror * mux_Channel :=
  let res := faults ch (length (log ch)) in
  (res, record (Encoded v res) ch).

(** [ch.Close()] *)
Definition Close (ch : mux_Channel) : option goerror * mux_Channel :=
  let res := faults ch (length (log ch)) in
  (res, record (Closed res) ch).

(** [c.Decoder(ch).Decode(v)] *)
Definition Channel_Decode (ty : gotype) (ch : mux_Channel) : (goerror + any) * mux_Channel :=
  let '(res, d) := Decode ty (rd ch) in
  (res, {| log := log ch; faults := faults ch; rd := d |}).

(** The values that reached the wire: those whose encoding succeeded. *)
Fixpoint wire (l : list event) : list any :=
  match l with
  | [] => []
  | Encoded v None :: l' => v :: wire l'
  | _ :: l' => wire l'
  end.

(** A close was attempted. *)
Definition close_attempted (l : list event) : bool :=
  existsb (fun ev => match ev with Closed _ => true | _ => false end) l.

(** ** A state monad for methods with a pointer receiver *)

Definition M (St A : Type) : Type := St -> A * St.

Definition ret {St A : Type} (a : A) : M St A := fun s => (a, s).

Definition bind {St A B : Type} (m : M St A) (k : A -> M St B) : M St B :=
  fun s => let '(a, s') := m s in k a s'.

Declare Scope go_scope.
Delimit Scope go_scope with go.
Notation "x <- m ;; k" := (bind m (fun x => k))
  (at level 61, m at next level, right associativity) : go_scope.
Notation "m ;;; k" := (bind m (fun _ => k))
  (at level 61, right associativity) : go_scope.
Local Open Scope go_scope.

(** ** The responder *)

(** [responder]: the pointee of [header] is owned by the responder, and the
    codec [c] is the value-level encoder of [ch]. *)
Record responder : Type := Build_responder {
  responded : bool;
  header    : ResponseHeader;
  ch        : mux_Channel
}.

Definition set_responded (b : bool) : M responder unit :=
  fun r => (tt, {| responded := b; header := header r; ch := ch r |}).

Definition set_header_C (b : bool) : M responder unit :=
  fun r => (tt, {| responded := responded r;
                   header := {| E := E (header r); C := b |};
                   ch := ch r |}).

Definition set_header_E (s : option string) : M responder unit :=
  fun r => (tt, {| responded := responded r;
                   header := {| E := s; C := C (header r) |};
                   ch := ch r |}).

Definition get_header : M responder ResponseHeader := fun r => (header r, r).

Definition on_ch {A : Type} (op : mux_Channel -> A * mux_Channel) : M responder A :=
  fun r => let '(a, ch') := op (ch r) in
           (a, {| responded := responded r; header := header r; ch := ch' |}).

(** [func (r *responder) Send(v interface{}) error] *)
Definition Send (v : any) : M responder (option goerror) := on_ch (Encode v).

(** The loop [for _, v := range values] of [respond], which returns at the
    first failed send. *)
Fixpoint send_each (values : list any) : M responder (option goerror) :=
  match values with
  | [] => ret None
  | v :: rest =>
      err <- Send v ;;
      match err with
      | Some e => ret (Some e)
      | None => send_each rest
      end
  end.

(** [func (r *responder) respond(values []any, continue_ bool) error] *)
Definition respond (values : list any) (continue_ : bool) : M responder (option goerror) :=
  set_responded true ;;;
  set_header_C continue_ ;;;
  values <- (if (length values =? 1)%nat then
               let '(e, ok) := assert_error (nth 0 values Nil) in
               let values := if ok then [Nil] else values in
               match e with
               | Some e => set_header_E (Some (Error e)) ;;; ret values
               | None => ret values
               end
             else ret values) ;;
  h <- get_header ;;
  err <- Send (HeaderValue h) ;;
  match err with
  | Some e => ret (Some e)
  | None =>
      let values := if (length values =? 0)%nat then [Nil] else values in
      err <- send_each values ;;
      match err with
      | Some e => ret (Some e)
      | None => if negb continue_ then on_ch Close else ret None
      end
  end.

(** [func (r *responder) Return(v ...any) error] *)
Definition Return (v : list any) : M responder (option goerror) := respond v false.

(** [func (r *responder) Continue(v ...any) (mux.Channel, error)]: the
    channel returned is the responder's own (a reference), hence in the state
    [respond] leaves it in. *)
Definition Continue (v : list any) : M responder (mux_Channel * option goerror) :=
  fun r => let '(err, r') := respond v true r in ((ch r', err), r').

(** ** The response, on the calling side *)

(** [Response]: [Response_Header] is the embedded [ResponseHeader]; the
    codec field is the value-level codec of [Channel]. *)
Record Response : Type := Build_Response {
  Response_Header : ResponseHeader;
  Value           : any;
  Channel         : mux_Channel
}.

(** [func (r *Response) Err() error] *)
Definition Response_Err (r : Response) : option goerror :=
  match E (Response_Header r) with
  | None => None
  | Some s => Some (errors_New s)
  end.

(** [func (r *Response) Continue() bool] *)
Definition Response_Continue (r : Response) : bool := C (Response_Header r).

Definition on_Channel {A : Type} (op : mux_Channel -> A * mux_Channel) : M Response A :=
  fun r => let '(a, c') := op (Channel r) in
           (a, {| Response_Header := Response_Header r; Value := Value r; Channel := c' |}).

(** [func (r *Response) Send(v interface{}) error] *)
Definition Response_Send (v : any) : M Response (option goerror) := on_Channel (Encode v).

(** [func (r *Response) Receive(v interface{}) error], [v] pointing to a
    variable of type [ty]: [inl err] is the error returned, [inr x] a nil
    error with [x] stored in the target. *)
Definition Response_Receive (ty : gotype) : M Response (goerror + any) :=
  on_Channel (Channel_Decode ty).

(** [func (r *Response) Close() error] *)
Definition Response_Close : M Response (option goerror) := on_Channel Close.

(** ** The call, on the responding side *)

(** [Call]: the embedded [CallHeader], the decoder and the channel.  The
    [Caller] and the [Context] take no part in [Selector] and [Receive]. *)
Record Call : Type := Build_Call {
  Call_Header  : CallHeader;
  Decoder      : codec_Decoder;
  Call_Channel : mux_Channel
}.

(** [func (c *Call) Selector() string] *)
Definition Selector (c : Call) : string := CallHeader_S (Call_Header c).

(** [func (c *Call) Receive(v interface{}) error]: [v] is [None] for a nil
    target and [Some ty] for a pointer to a variable of type [ty].  The
    result is the error returned and, when the caller gave a target that was
    filled, its new content; what is decoded into the local [discard] is
    dropped when the method returns. *)
Definition Call_Receive (v : option gotype) : M Call (option goerror * option any) :=
  fun c =>
    let target := match v with
                  | None => TBytes      (* var discard []byte; v = &discard *)
                  | Some ty => ty
                  end in
    let '(res, d) := Decode target (Decoder c) in
    let c' := {| Call_Header := Call_Header c; Decoder := d; Call_Channel := Call_Channel c |} in
    match res with
    | inl err => ((Some err, None), c')
    | inr x => ((None, match v with None => None | Some _ => Some x end), c')
    end.

(** ** The streaming adapter *)

(** A [context.Context] as the adapter sees it: [done k] tells whether
    [ctx.Done()] is ready the [k]-th time it is polled. *)
Record Context : Type := Build_Context { done : nat -> bool; polls : nat }.

Definition Done_ready : M Context bool :=
  fun ctx => (done ctx (polls ctx), {| done := done ctx; polls := 1 + polls ctx |}).

(** What a call does when it ends: it returns, or it panics. *)
Inductive outcome (A : Type) : Type :=
| Returns (a : A)
| Panics.
Arguments Returns {A} a.
Arguments Panics {A}.

Section Adapter.

Variable T : Type.

(** [mapstructure.Decode(v, &vv)], a library outside the package: the
    converted element, or the conversion error. *)
Variable mapstructure_Decode : any -> goerror + T.

(** A Go channel of [T] whose receiver takes every element offered, so that
    a send does not block for ever: the elements delivered so far, oldest
    first, and whether the channel is closed. *)
Record chan : Type := Build_chan { items : list T; chan_closed : bool }.

(** [ch <- vv]: sending on a closed channel panics ([None]). *)
Definition chan_send (vv : T) (c : chan) : option chan :=
  if chan_closed c then None
  else Some {| items := items c ++ [vv]; chan_closed := false |}.

(** [close(ch)]: closing a closed channel panics ([None]). *)
Definition chan_close (c : chan) : option chan :=
  if chan_closed c then None
  else Some {| items := items c; chan_closed := true |}.

(** The [for] loop of [ReceiveNotify]; [fuel] bounds the number of
    iterations, and [None] means the bound was reached. *)
Fixpoint ReceiveNotify_loop (fuel : nat) (ctx : Context) (resp : Response) (c : chan)
  : option (outcome (option goerror) * Response * chan) :=
  match fuel with
  | O => None
  | S fuel' =>
      let '(res, resp1) := Response_Receive TAny resp in
      match res with
      | inl err => Some (Returns (Some err), resp1, c)
      | inr v =>
          match mapstructure_Decode v with
          | inl err => Some (Returns (Some err), resp1, c)
          | inr vv =>
              let '(fired, ctx1) := Done_ready ctx in
              if fired then Some (Returns None, resp1, c)
              else match chan_send vv c with
                   | None => Some (Panics, resp1, c)
                   | Some c1 => ReceiveNotify_loop fuel' ctx1 resp1 c1
                   end
          end
      end
  end.

(** [func ReceiveNotify[T any](ctx context.Context, resp *Response, ch chan T) error]:
    the loop, then the deferred [resp.Close()] (its error is dropped) and
    the deferred [close(ch)]. *)
Definition ReceiveNotify (fuel : nat) (ctx : Context) (resp : Response) (c : chan)
  : option (outcome (option goerror) * Response * chan) :=
  match ReceiveNotify_loop fuel ctx resp c with
  | None => None
  | Some (out, resp1, c1) =>
      let '(_, resp2) := Response_Close resp1 in
      match chan_close c1 with
      | None => Some (Panics, resp2, c1)
      | Some c2 => Some (out, resp2, c2)
      end
  end.

End Adapter.

Arguments items {T} c.
Arguments chan_closed {T} c.

(** ** Vocabulary of the specification *)

(** The reply values of a response: a single error object and an empty list
    are both replaced by a single null value. *)
Definition replies (values : list any) : list any :=
  match values with
  | [] => [Nil]
  | [ErrorValue _] => [Nil]
  | _ => values
  end.

(** The header of a response: the message of a single error object goes to
    the error field, which is otherwise left as it is. *)
Definition reply_header (h : ResponseHeader) (values : list any) (continue_ : bool)
  : ResponseHeader :=
  {| E := match values with
          | [ErrorValue e] => Some (Error e)
          | _ => E h
          end;
     C := continue_ |}.

(** The event of a value that was encoded without error. *)
Definition sent (v : any) : event := Encoded v None.

(** No operation on the channel fails. *)
Definition reliable : nat -> option goerror := fun _ => None.

(** Only the operation number [k] fails, with error [e]. *)
Definition fails_at (k : nat) (e : goerror) : nat -> option goerror :=
  fun i => if (i =? k)%nat then Some e else None.

(** No item ever arrives: every decode fails with [EOF]. *)
Definition EOF : goerror := errors_New "EOF".
Definition no_input : codec_Decoder :=
  {| input := fun _ _ => inl EOF; rpos := 0; calls := [] |}.

(** A decoder fed the items [l], then the end of the stream.  An item
    decodes into a target of type [any], and into a target of its own type. *)
Definition fits (ty : gotype) (v : any) : bool :=
  match ty, v with
  | TAny, _ => true
  | TString, StringValue _ => true
  | TInt, IntValue _ => true
  | TBool, BoolValue _ => true
  | TBytes, BytesValue _ => true
  | THeader, HeaderValue _ => true
  | _, _ => false
  end.

Definition reading (l : list any) : codec_Decoder :=
  {| input := fun i ty =>
                match nth_error l i with
                | None => inl EOF
                | Some v => if fits ty v then inr v else inl (errors_New "cannot unmarshal")
                end;
     rpos := 0; calls := [] |}.

(** A channel on which nothing has happened yet. *)
Definition fresh_channel (f : nat -> option goerror) (d : codec_Decoder) : mux_Channel :=
  {| log := []; faults := f; rd := d |}.

(** The responder a dispatcher hands to a handler. *)
Definition fresh_responder (f : nat -> option goerror) : responder :=
  {| responded := false; header := {| E := None; C := false |};
     ch := fresh_channel f no_input |}.


(** The responder [r] after the events [evs] were added to its channel. *)
Definition extend (evs : list event) (r : responder) : responder :=
  {| responded := responded r; header := header r;
     ch := {| log := log (ch r) ++ evs; faults := faults (ch r); rd := rd (ch r) |} |}.

(** The number of operations already performed on the responder's channel. *)
Definition base (r : responder) : nat := length (log (ch r)).

(** The next [n] operations on the responder's channel succeed. *)
Definition next_ok (n : nat) (r : responder) : Prop :=
  forall j, j < n -> faults (ch r) (base r + j) = None.

(** The responder as [respond] has it when it starts sending: marked as
    responded, with the header of the response. *)
Definition prepared (values : list any) (continue_ : bool) (r : responder) : responder :=
  {| responded := true;
     header := reply_header (header r) values continue_;
     ch := ch r |}.

(** What [respond] hands to the encoder when no send fails: the header, then
    the replies. *)
Definition sends (values : list any) (continue_ : bool) (r : responder) : list any :=
  HeaderValue (reply_header (header r) values continue_) :: replies values.

(** What a handler can do with its responder. *)
Inductive action : Type :=
| DoReturn (v : list any)
| DoContinue (v : list any)
| DoSend (v : any).

Definition perform (r : responder) (a : action) : responder :=
  match a with
  | DoReturn v => snd (Return v r)
  | DoContinue v => snd (Continue v r)
  | DoSend v => snd (Send v r)
  end.

(** A handler that performs the actions [acts] one after the other, whatever
    errors they return. *)
Definition handler (acts : list action) (r : responder) : responder :=
  fold_left perform acts r.

(** The contract of [Send]: it is used after [Continue] was called. *)
Fixpoint sends_after_Continue (continued : bool) (acts : list action) : bool :=
  match acts with
  | [] => true
  | DoSend _ :: rest => continued && sends_after_Continue continued rest
  | DoContinue _ :: rest => sends_after_Continue true rest
  | DoReturn _ :: rest => sends_after_Continue continued rest
  end.

Section AdapterVocabulary.

Variable T : Type.
Variable mapstructure_Decode : any -> goerror + T.

(** The outcome of the [i]-th next [resp.Receive(&v)], [v] of type [any]. *)
Definition received (resp : Response) (i : nat) : goerror + any :=
  input (rd (Channel resp)) (rpos (rd (Channel resp)) + i) TAny.

(** Whether the context is found cancelled the [i]-th next time it is polled. *)
Definition cancelled (ctx : Context) (i : nat) : bool := done ctx (polls ctx + i).

(** Iteration [i] receives a value, converts it to [vv], finds the context
    live and forwards [vv]. *)
Definition forwards (ctx : Context) (resp : Response) (i : nat) (vv : T) : Prop :=
  exists v, received resp i = inr v /\ mapstructure_Decode v = inr vv /\
            cancelled ctx i = false.

(** Iteration [n] ends the loop with [res]: the receive fails, or the
    conversion fails, or an element was decoded and the context is found
    cancelled. *)
Definition stops (ctx : Context) (resp : Response) (n : nat) (res : option goerror) : Prop :=
  (exists e, received resp n = inl e /\ res = Some e) \/
  (exists v e, received resp n = inr v /\ mapstructure_Decode v = inl e /\ res = Some e) \/
  (exists v vv, received resp n = inr v /\ mapstructure_Decode v = inr vv /\
                cancelled ctx n = true /\ res = None).

End AdapterVocabulary.

(** ** The interop service *)

(** A [Caller], the interface through which a handler calls back.  Its
    implementation is outside the package: [answer k selector params] is what
    the call made when [k] calls were made before returns, namely the
    response, the value stored in the reply target, and the error; [made]
    records the calls, oldest first. *)
Record Caller : Type := Build_Caller {
  answer : nat -> string -> any -> Response * any * option goerror;
  made   : list (string * any)
}.

(** [caller.Call(ctx, selector, params, &ret)] *)
Definition Caller_Call (selector : string) (params : any)
  : M Caller (Response * any * option goerror) :=
  fun c => (answer c (length (made c)) selector params,
            {| answer := answer c; made := made c ++ [(selector, params)] |}).

(** The content of a variable of type [any] that [Receive] was given: the
    value stored in it, or the nil it was declared with. *)
Definition any_var (stored : option any) : any :=
  match stored with
  | Some x => x
  | None => Nil
  end.

(** The content of a variable of type [string] that [Receive] was given: the
    string stored in it, or the empty string it was declared with. *)
Definition string_var (stored : option any) : string :=
  match stored with
  | Some (StringValue s) => s
  | _ => ""
  end.

(** [func (s InteropService) Unary(resp rpc.Responder, call *rpc.Call)], with
    [call.Caller] as [caller].  Errors are logged and otherwise dropped. *)
Definition InteropService_Unary (resp : responder) (call : Call) (caller : Caller)
  : responder * Call * Caller :=
  let '((err, params), call1) := Call_Receive (Some TAny) call in
  match err with
  | Some _ => (resp, call1, caller)
  | None =>
      let '((_, ret, err), caller1) :=
        Caller_Call "UnaryCallback" (any_var params) caller in
      match err with
      | Some _ => (resp, call1, caller1)
      | None =>
          let '(_, resp1) := Return [ret] resp in
          (resp1, call1, caller1)
      end
  end.

(** [func (s InteropService) Error(resp rpc.Responder, call *rpc.Call)] *)
Definition InteropService_Error (resp : responder) (call : Call) : responder * Call :=
  let '((err, text), call1) := Call_Receive (Some TString) call in
  match err with
  | Some _ => (resp, call1)
  | None =>
      let '(_, resp1) := Return [ErrorValue (errors_New (string_var text))] resp in
      (resp1, call1)
  end.

(** The loop of [Stream] that runs in the handler's own goroutine: it
    receives from the callback's stream and sends on the responder, until one
    of the two fails.  The result is the error that broke the loop; [None]
    means that [fuel] iterations were not enough. *)
Fixpoint InteropService_Stream_relay (fuel : nat) (stream : Response) (resp : responder)
  : option (goerror * Response * responder) :=
  match fuel with
  | O => None
  | S fuel' =>
      let '(res, stream1) := Response_Receive TAny stream in
      match res with
      | inl err => Some (err, stream1, resp)
      | inr v =>
          let '(err, resp1) := Send v resp in
          match err with
          | Some e => Some (e, stream1, resp1)
          | None => InteropService_Stream_relay fuel' stream1 resp1
          end
      end
  end.

(** [func (s InteropService) Stream(resp rpc.Responder, call *rpc.Call)], as
    run by the handler's own goroutine, with [call.Caller] as [caller].  The
    goroutine it starts relays the other direction, from the decoder of the
    call to the write side of the stream, and works on neither the responder
    nor the read side of the stream; it is not modelled, so the write side of
    the stream in the result holds the operations of this goroutine only.
    The last component is the stream, once the callback returned it.  The
    deferred calls run last: [stream.Close()], then [ch.Close()] on the
    channel [Continue] returned, which is the responder's. *)
Definition InteropService_Stream (fuel : nat) (resp : responder) (call : Call) (caller : Caller)
  : option (responder * Call * Caller * option Response) :=
  let '((err, params), call1) := Call_Receive (Some TAny) call in
  match err with
  | Some _ => Some (resp, call1, caller, None)
  | None =>
      let '((stream, ret, err), caller1) :=
        Caller_Call "StreamCallback" (any_var params) caller in
      match err with
      | Some _ => Some (resp, call1, caller1, Some stream)
      | None =>
          let '((_, err), resp1) := Continue [ret] resp in
          match err with
          | Some _ => Some (resp1, call1, caller1, Some stream)
          | None =>
              match InteropService_Stream_relay fuel stream resp1 with
              | None => None
              | Some (_, stream1, resp2) =>
                  let '(_, stream2) := Response_Close stream1 in
                  let '(_, resp3) := on_ch Close resp2 in
                  Some (resp3, call1, caller1, Some stream2)
              end
          end
      end
  end.

(** The next [n] receives on the response yield the values [vs]. *)
Definition yields (stream : Response) (vs : list any) : Prop :=
  forall i v, nth_error vs i = Some v -> received stream i = inr v.

(** The first argument of the call arrives as the value [p]. *)
Definition argument (call : Call) (ty : gotype) (p : any) : Prop :=
  input (Decoder call) (rpos (Decoder call)) ty = inr p.

(** A caller whose next call returns [out]. *)
Definition answers (caller : Caller) (selector : string) (p : any)
  (out : Response * any * option goerror) : Prop :=
  answer caller (length (made caller)) selector p = out.

(** ** Facts about sending *)

Lemma extend_nil (r : responder) : extend [] r = r.
Proof.
  destruct r as [b h [l f d]]. unfold extend. simpl. now rewrite app_nil_r.
Qed.

Lemma extend_app (l1 l2 : list event) (r : responder) :
  extend (l1 ++ l2) r = extend l2 (extend l1 r).
Proof.
  unfold extend. simpl. now rewrite app_assoc.
Qed.

Lemma extend_cons (ev : event) (l : list event) (r : responder) :
  extend (ev :: l) r = extend l (extend [ev] r).
Proof. exact (extend_app [ev] l r). Qed.

Lemma base_extend (l : list event) (r : responder) :
  base (extend l r) = base r + length l.
Proof. unfold base, extend. simpl. now rewrite length_app. Qed.

Lemma Send_eq (v : any) (r : responder) :
  Send v r = (faults (ch r) (base r), extend [Encoded v (faults (ch r) (base r))] r).
Proof. reflexivity. Qed.

Lemma Close_eq (r : responder) :
  on_ch Close r = (faults (ch r) (base r), extend [Closed (faults (ch r) (base r))] r).
Proof. reflexivity. Qed.

Lemma next_ok_step (n : nat) (ev : event) (r : responder) :
  next_ok (S n) r -> next_ok n (extend [ev] r).
Proof.
  intros H j Hj. rewrite base_extend. simpl.
  replace (base r + 1 + j) with (base r + S j) by lia.
  apply H. lia.
Qed.

Lemma next_ok_head (n : nat) (r : responder) :
  next_ok (S n) r -> faults (ch r) (base r) = None.
Proof.
  intros H. specialize (H 0). rewrite Nat.add_0_r in H. apply H. lia.
Qed.

Lemma send_each_ok (vs : list any) :
  forall r, next_ok (length vs) r -> send_each vs r = (None, extend (map sent vs) r).
Proof.
  induction vs as [|v vs IH]; intros r H; simpl.
  - unfold ret. now rewrite extend_nil.
  - unfold bind. rewrite Send_eq. rewrite (next_ok_head _ _ H).
    rewrite IH by (apply next_ok_step; exact H).
    now rewrite (extend_cons (sent v) (map sent vs)).
Qed.

Lemma send_each_fail (vs : list any) :
  forall r k e,
    k < length vs -> next_ok k r -> faults (ch r) (base r + k) = Some e ->
    send_each vs r =
      (Some e, extend (map sent (firstn k vs) ++ [Encoded (nth k vs Nil) (Some e)]) r).
Proof.
  induction vs as [|v vs IH]; intros r k e Hk Hok Hf; simpl in Hk; [lia|].
  simpl. unfold bind. rewrite Send_eq. destruct k as [|k].
  - rewrite Nat.add_0_r in Hf. rewrite Hf. reflexivity.
  - rewrite (next_ok_head _ _ Hok).
    rewrite (IH _ k e).
    + simpl. now rewrite (extend_cons (sent v) (_ ++ _)).
    + lia.
    + apply next_ok_step. exact Hok.
    + rewrite base_extend. simpl.
      replace (base r + 1 + k) with (base r + S k) by lia. exact Hf.
Qed.

(** [respond] marks the responder, fixes the header, and then sends the
    header and the replies until a send fails; it closes the channel when all
    were sent and the call is not continued. *)
Lemma respond_unfold (values : list any) (continue_ : bool) (r : responder) :
  respond values continue_ r =
    let r1 := {| responded := true;
                 header := reply_header (header r) values continue_;
                 ch := ch r |} in
    match send_each (HeaderValue (header r1) :: replies values) r1 with
    | (Some e, r2) => (Some e, r2)
    | (None, r2) => if continue_ then (None, r2) else on_ch Close r2
    end.
Proof.
  destruct r as [b h [l f d]].
  destruct values as [|v [|v' vs]]; try destruct v;
    unfold respond, reply_header, replies, bind, set_responded, set_header_C, set_header_E, get_header,
      ret, Send, on_ch, Encode, Close, record;
    simpl;
    unfold bind, ret, Send, on_ch, Encode, Close, record; simpl;
    repeat match goal with
    | |- context [match f ?n with Some _ => _ | None => _ end] =>
        destruct (f n) eqn:?; simpl
    | |- context [send_each ?vs ?s] =>
        destruct (send_each vs s) as [[?|] ?]; simpl
    end; try destruct continue_; reflexivity.
Qed.

(** Either the next [n] operations succeed, or there is a first one that fails. *)
Lemma next_ok_dec (n : nat) (r : responder) :
  next_ok n r \/
  exists k e, k < n /\ next_ok k r /\ faults (ch r) (base r + k) = Some e.
Proof.
  induction n as [|n [IH | (k & e & Hk & Hok & Hf)]].
  - left. intros j Hj. lia.
  - destruct (faults (ch r) (base r + n)) as [e|] eqn:Hn.
    + right. exists n, e. auto.
    + left. intros j Hj. destruct (Nat.eq_dec j n) as [->|Hne]; [exact Hn|].
      apply IH. lia.
  - right. exists k, e. auto.
Qed.

(** When no send fails, [respond] logs the header and the replies, and then
    closes the channel unless the call is continued. *)
Lemma respond_ok (values : list any) (continue_ : bool) (r : responder) :
  next_ok (length (sends values continue_ r)) r ->
  respond values continue_ r =
    let r2 := extend (map sent (sends values continue_ r)) (prepared values continue_ r) in
    if continue_ then (None, r2) else on_ch Close r2.
Proof.
  intros H. rewrite respond_unfold. cbv zeta.
  change (send_each _ _) with
    (send_each (sends values continue_ r) (prepared values continue_ r)).
  rewrite send_each_ok by exact H. reflexivity.
Qed.

(** When a send fails, [respond] returns its error and logs nothing after it. *)
Lemma respond_fail (values : list any) (continue_ : bool) (r : responder) (k : nat) (e : goerror) :
  k < length (sends values continue_ r) -> next_ok k r ->
  faults (ch r) (base r + k) = Some e ->
  respond values continue_ r =
    (Some e,
     extend (map sent (firstn k (sends values continue_ r)) ++
             [Encoded (nth k (sends values continue_ r) Nil) (Some e)])
            (prepared values continue_ r)).
Proof.
  intros Hk Hok Hf. rewrite respond_unfold. cbv zeta.
  change (send_each _ _) with
    (send_each (sends values continue_ r) (prepared values continue_ r)).
  rewrite (send_each_fail _ _ k e) by assumption. reflexivity.
Qed.

Lemma send_each_events (vs : list any) :
  forall r, exists evs,
    snd (send_each vs r) = extend evs r /\
    (forall v res, In (Encoded v res) evs -> In v vs) /\
    (forall res, ~ In (Closed res) evs).
Proof.
  induction vs as [|v vs IH]; intros r.
  - exists []. simpl. rewrite extend_nil. split; [reflexivity|].
    split; [intros v res [] | intros res []].
  - simpl. unfold bind. rewrite Send_eq.
    destruct (faults (ch r) (base r)) as [e|].
    + exists [Encoded v (Some e)]. simpl. repeat split.
      * intros v0 res [H|[]]. injection H as <- _. now left.
      * intros res [H|[]]. discriminate.
    + destruct (IH (extend [Encoded v None] r)) as (evs & Heq & Hin & Hcl).
      exists (Encoded v None :: evs). rewrite Heq. repeat split.
      * now rewrite (extend_cons _ evs).
      * intros v0 res [H|H]; [injection H as <- _; now left | right; eauto].
      * intros res [H|H]; [discriminate | exact (Hcl res H)].
Qed.

(** Whatever the transport does, the first thing [respond] does on the
    channel is to encode the header, and every value it encodes afterwards is
    one of the replies. *)
Lemma respond_shape (values : list any) (continue_ : bool) (r : responder) :
  exists evs,
    snd (respond values continue_ r) =
      extend (Encoded (HeaderValue (reply_header (header r) values continue_))
                      (faults (ch r) (base r)) :: evs)
             (prepared values continue_ r) /\
    (forall v res, In (Encoded v res) evs -> In v (replies values)).
Proof.
  rewrite respond_unfold. cbv zeta. simpl send_each. unfold bind.
  rewrite Send_eq.
  change (faults (ch _) (base _)) with (faults (ch r) (base r)).
  change (header {| responded := true; header := ?h; ch := _ |}) with h.
  destruct (faults (ch r) (base r)) as [e|].
  - exists []. split; [reflexivity | intros v res []].
  - match goal with |- context [send_each ?vs ?s] =>
      destruct (send_each_events vs s) as (evs & Heq & Hin & _);
      destruct (send_each vs s) as [[e|] r2]
    end; simpl in Heq; subst r2.
    + exists evs. split; [now rewrite (extend_cons _ evs) | exact Hin].
    + destruct continue_.
      * exists evs. split; [now rewrite (extend_cons _ evs) | exact Hin].
      * rewrite Close_eq. simpl snd.
        match goal with |- context [Closed ?x] => exists (evs ++ [Closed x]) end.
        split.
        -- rewrite (extend_cons _ (evs ++ _)), extend_app. reflexivity.
        -- intros v res H. apply in_app_or in H as [H|[H|[]]]; [eauto | discriminate].
Qed.

Lemma wire_app (l1 l2 : list event) : wire (l1 ++ l2) = wire l1 ++ wire l2.
Proof.
  induction l1 as [|[v [e|]|res] l1 IH]; simpl; rewrite ?IH; reflexivity.
Qed.

Lemma wire_sent (vs : list any) : wire (map sent vs) = vs.
Proof. induction vs as [|v vs IH]; simpl; rewrite ?IH; reflexivity. Qed.

Lemma replies_nonempty (values : list any) : replies values <> [].
Proof.
  destruct values as [|v [|v' vs]]; try destruct v; simpl; discriminate.
Qed.

Lemma respond_log (values : list any) (continue_ : bool) (r : responder) :
  exists evs,
    header (snd (respond values continue_ r)) = reply_header (header r) values continue_ /\
    responded (snd (respond values continue_ r)) = true /\
    log (ch (snd (respond values continue_ r))) =
      log (ch r) ++
      Encoded (HeaderValue (reply_header (header r) values continue_))
              (faults (ch r) (base r)) :: evs /\
    (forall v res, In (Encoded v res) evs -> In v (replies values)).
Proof.
  destruct (respond_shape values continue_ r) as (evs & Heq & Hin).
  exists evs. rewrite Heq. repeat split. exact Hin.
Qed.

Lemma respond_ok_log (values : list any) (continue_ : bool) (r : responder) :
  next_ok (length (sends values continue_ r)) r ->
  fst (respond values continue_ r) =
    (if continue_ then None else faults (ch r) (base r + length (sends values continue_ r))) /\
  log (ch (snd (respond values continue_ r))) =
    log (ch r) ++ map sent (sends values continue_ r) ++
    (if continue_ then [] else
       [Closed (faults (ch r) (base r + length (sends values continue_ r)))]).
Proof.
  intros H. rewrite (respond_ok _ _ _ H). cbv zeta. destruct continue_.
  - split; [reflexivity|]. simpl. now rewrite app_nil_r.
  - rewrite Close_eq, base_extend, length_map. split; [reflexivity|].
    simpl snd. unfold extend. simpl log. now rewrite <- app_assoc.
Qed.

(** ** The error convention *)

(** C1. A call of [Return] or [Continue] ([respond] with either flag) whose
    only value is an error object sets the error field of the header to the
    message of the error and encodes, after the header, nothing but a null
    value: the error object itself is never handed to the encoder.  A
    [Response] built from that header has a non-nil [Err()] with the same
    message, and when the two sends succeed the wire carries the header
    followed by a single null reply. *)
Theorem respond_single_error (e : goerror) (continue_ : bool) (r : responder) :
  let h := {| E := Some (Error e); C := continue_ |} in
  let r' := snd (respond [ErrorValue e] continue_ r) in
  header r' = h /\
  (exists evs,
      log (ch r') = log (ch r) ++ Encoded (HeaderValue h) (faults (ch r) (base r)) :: evs /\
      forall v res, In (Encoded v res) evs -> v = Nil) /\
  (forall resp, Response_Header resp = h ->
      exists e', Response_Err resp = Some e' /\ Error e' = Error e) /\
  (next_ok 2 r -> wire (log (ch r')) = wire (log (ch r)) ++ [HeaderValue h; Nil]).
Proof.
  cbv zeta.
  destruct (respond_log [ErrorValue e] continue_ r) as (evs & Hh & _ & Hlog & Hin).
  split; [exact Hh|]. split; [|split].
  - exists evs. split; [exact Hlog|].
    intros v res H. destruct (Hin v res H) as [<-|[]]. reflexivity.
  - intros resp Hr. exists (errors_New (Error e)).
    unfold Response_Err. rewrite Hr. split; reflexivity.
  - intros Hok. destruct (respond_ok_log [ErrorValue e] continue_ r Hok) as [_ Hl].
    rewrite Hl, !wire_app, wire_sent. destruct continue_; simpl; now rewrite ?app_nil_r.
Qed.

Lemma respond_single_error_witness :
  wire (log (ch (snd (Return [ErrorValue (errors_New "boom")] (fresh_responder reliable))))) =
  [HeaderValue {| E := Some "boom"; C := false |}; Nil].
Proof.
  apply (proj2 (proj2 (proj2
           (respond_single_error (errors_New "boom") false (fresh_responder reliable))))).
  intros j _. reflexivity.
Defined.

(** C10. The error convention looks at the dynamic type of the value.  A
    single nil interface value does not implement [error]: the error field
    of the header is left as it was, so a [Response] built from the header of
    a responder whose error field was unset has a nil [Err()]; and the only
    value encoded after the header is that nil value. *)
Theorem respond_single_nil (continue_ : bool) (r : responder) :
  let h := {| E := E (header r); C := continue_ |} in
  let r' := snd (respond [Nil] continue_ r) in
  assert_error Nil = (None, false) /\
  header r' = h /\
  (E (header r) = None ->
     forall resp, Response_Header resp = header r' -> Response_Err resp = None) /\
  (exists evs,
      log (ch r') = log (ch r) ++ Encoded (HeaderValue h) (faults (ch r) (base r)) :: evs /\
      forall v res, In (Encoded v res) evs -> v = Nil) /\
  (next_ok 2 r -> wire (log (ch r')) = wire (log (ch r)) ++ [HeaderValue h; Nil]).
Proof.
  cbv zeta.
  destruct (respond_log [Nil] continue_ r) as (evs & Hh & _ & Hlog & Hin).
  split; [reflexivity|]. split; [exact Hh|]. split; [|split].
  - intros HE resp Hr. unfold Response_Err. rewrite Hr, Hh. simpl. now rewrite HE.
  - exists evs. split; [exact Hlog|].
    intros v res H. destruct (Hin v res H) as [<-|[]]. reflexivity.
  - intros Hok. destruct (respond_ok_log [Nil] continue_ r Hok) as [_ Hl].
    rewrite Hl, !wire_app, wire_sent. destruct continue_; simpl; now rewrite ?app_nil_r.
Qed.

Lemma respond_single_nil_witness :
  (forall resp,
      Response_Header resp = header (snd (Return [Nil] (fresh_responder reliable))) ->
      Response_Err resp = None) /\
  wire (log (ch (snd (Return [Nil] (fresh_responder reliable))))) =
  [HeaderValue {| E := None; C := false |}; Nil].
Proof.
  split.
  - apply (proj1 (proj2 (proj2 (respond_single_nil false (fresh_responder reliable))))).
    reflexivity.
  - apply (proj2 (proj2 (proj2 (proj2 (respond_single_nil false (fresh_responder reliable)))))).
    intros j _. reflexivity.
Defined.

(** ** The at-least-one-reply convention *)

(** C2. When no send fails, the wire carries the header of the response and
    then at least one reply value; a call with no value at all ([Return()])
    puts a single null value after the header.  This holds for continued
    calls as well. *)
Theorem respond_at_least_one_reply (values : list any) (continue_ : bool) (r : responder) :
  next_ok (length (sends values continue_ r)) r ->
  let r' := snd (respond values continue_ r) in
  (exists v vs,
      replies values = v :: vs /\
      wire (log (ch r')) = wire (log (ch r)) ++ HeaderValue (header r') :: v :: vs) /\
  (values = [] ->
      wire (log (ch r')) = wire (log (ch r)) ++ [HeaderValue (header r'); Nil]).
Proof.
  intros Hok. cbv zeta.
  destruct (respond_log values continue_ r) as (evs & Hh & _ & _ & _).
  destruct (respond_ok_log values continue_ r Hok) as [_ Hl].
  assert (Hw : wire (log (ch (snd (respond values continue_ r)))) =
               wire (log (ch r)) ++
               HeaderValue (header (snd (respond values continue_ r))) :: replies values).
  { rewrite Hl, Hh, !wire_app, wire_sent. unfold sends.
    destruct continue_; simpl; now rewrite ?app_nil_r. }
  split.
  - destruct (replies values) as [|v vs] eqn:Hr.
    + now destruct (replies_nonempty values).
    + exists v, vs. split; [reflexivity | exact Hw].
  - intros ->. exact Hw.
Qed.

Lemma respond_at_least_one_reply_witness :
  wire (log (ch (snd (Return [] (fresh_responder reliable))))) =
  [HeaderValue {| E := None; C := false |}; Nil].
Proof.
  apply (proj2 (respond_at_least_one_reply [] false (fresh_responder reliable)
                  (fun j _ => eq_refl))).
  reflexivity.
Defined.

(** ** The write trace of a response *)

(** A call of [respond] that returns no error met no failing operation. *)
Lemma respond_success (values : list any) (continue_ : bool) (r : responder) :
  fst (respond values continue_ r) = None ->
  next_ok (length (sends values continue_ r)) r /\
  (continue_ = false ->
     faults (ch r) (base r + length (sends values continue_ r)) = None).
Proof.
  intros Hres.
  destruct (next_ok_dec (length (sends values continue_ r)) r)
    as [Hok | (k & e & Hk & Hok & Hf)].
  - split; [exact Hok|]. intros ->.
    destruct (respond_ok_log values false r Hok) as [Hfst _].
    now rewrite <- Hfst.
  - rewrite (respond_fail values continue_ r k e Hk Hok Hf) in Hres. discriminate.
Qed.

Lemma Continue_respond (v : list any) (r : responder) :
  Continue v r = ((ch (snd (respond v true r)), fst (respond v true r)),
                  snd (respond v true r)).
Proof. unfold Continue. now destruct (respond v true r). Qed.

(** C3, as the code has it.  A call of [Return] that returns no error logs
    the header with the continue flag false, then each reply in order, then
    the close of the channel; a call of [Continue] that returns no error logs
    the header with the flag true, then each reply in order, and no close,
    and returns the responder's own channel.  The replies are the supplied
    values unless these are empty or a single error object, in which case
    one null value is sent in their place.  In both cases the header is the
    first thing logged. *)
Theorem respond_trace (values : list any) (r : responder) :
  (fst (Return values r) = None ->
     log (ch (snd (Return values r))) =
       log (ch r) ++
       sent (HeaderValue (reply_header (header r) values false)) ::
       map sent (replies values) ++ [Closed None]) /\
  (snd (fst (Continue values r)) = None ->
     log (ch (snd (Continue values r))) =
       log (ch r) ++
       sent (HeaderValue (reply_header (header r) values true)) ::
       map sent (replies values)) /\
  fst (fst (Continue values r)) = ch (snd (Continue values r)) /\
  (values <> [] -> (forall e, values <> [ErrorValue e]) -> replies values = values).
Proof.
  split; [|split; [|split]].
  - unfold Return. intros Hres.
    destruct (respond_success values false r Hres) as [Hok Hcl].
    destruct (respond_ok_log values false r Hok) as [_ Hl].
    rewrite Hl, (Hcl eq_refl). reflexivity.
  - rewrite Continue_respond. simpl. intros Hres.
    destruct (respond_success values true r Hres) as [Hok _].
    destruct (respond_ok_log values true r Hok) as [_ Hl].
    rewrite Hl. simpl. now rewrite app_nil_r.
  - rewrite Continue_respond. reflexivity.
  - intros Hne Herr. destruct values as [|v [|v' vs]]; try destruct v;
      try reflexivity; [now destruct Hne | now destruct (Herr e)].
Qed.

Lemma respond_trace_witness :
  log (ch (snd (Return [StringValue "B"] (fresh_responder reliable)))) =
    [sent (HeaderValue {| E := None; C := false |}); sent (StringValue "B"); Closed None] /\
  log (ch (snd (Continue [StringValue "B"] (fresh_responder reliable)))) =
    [sent (HeaderValue {| E := None; C := true |}); sent (StringValue "B")].
Proof.
  split.
  - apply (proj1 (respond_trace [StringValue "B"] (fresh_responder reliable))).
    reflexivity.
  - apply (proj1 (proj2 (respond_trace [StringValue "B"] (fresh_responder reliable)))).
    reflexivity.
Defined.

(** C3, as the specification words it, fails: a successful [Return] of a
    single error object does not put the supplied value on the wire after the
    header, it puts a null value there. *)
Lemma respond_trace_counterexample :
  ~ (forall (values : list any) (r : responder),
       fst (Return values r) = None ->
       exists h, wire (log (ch (snd (Return values r)))) =
                 wire (log (ch r)) ++ HeaderValue h :: values).
Proof.
  intros H.
  destruct (H [ErrorValue (errors_New "boom")] (fresh_responder reliable) eq_refl)
    as [h Hh].
  vm_compute in Hh. discriminate.
Qed.

(** ** The responded flag *)

(** C4. Every call of [respond] sets the responded flag, and none looks at
    it: the call returns the same error and leaves the same state whatever
    the flag was.  So on a responder that has already responded, a second
    call is neither refused nor skipped: its first operation on the channel
    is, again, the encoding of a header. *)
Theorem respond_ignores_responded
  (values1 values2 : list any) (continue1 continue2 : bool) (r : responder) (b : bool) :
  let r1 := snd (respond values1 continue1 r) in
  let r2 := snd (respond values2 continue2 r1) in
  responded r1 = true /\
  respond values1 continue1 {| responded := b; header := header r; ch := ch r |} =
    respond values1 continue1 r /\
  responded r2 = true /\
  exists evs,
    log (ch r2) =
      log (ch r1) ++
      Encoded (HeaderValue (reply_header (header r1) values2 continue2))
              (faults (ch r1) (base r1)) :: evs.
Proof.
  cbv zeta.
  destruct (respond_log values1 continue1 r) as (evs1 & _ & Hr1 & _ & _).
  destruct (respond_log values2 continue2 (snd (respond values1 continue1 r)))
    as (evs2 & _ & Hr2 & Hl2 & _).
  split; [exact Hr1|]. split; [|split; [exact Hr2|]].
  - rewrite !respond_unfold. reflexivity.
  - exists evs2. exact Hl2.
Qed.

(** Two calls of [Continue] in a row on a transport that accepts everything:
    the wire carries two headers. *)
Example second_Continue_sends_a_header :
  wire (log (ch (handler [DoContinue [StringValue "a"]; DoContinue [StringValue "b"]]
                         (fresh_responder reliable)))) =
  [HeaderValue {| E := None; C := true |}; StringValue "a";
   HeaderValue {| E := None; C := true |}; StringValue "b"].
Proof. reflexivity. Qed.

(** ** Failures of the transport *)

(** C5. If the [k]-th send of [respond] is the first to fail, with error
    [e], then [respond] returns [e] and the log ends with that failed send:
    nothing is sent after it and no close is attempted.  If every send
    succeeds, a continued call returns nil and attempts no close, and a call
    that is not continued closes the channel once, after the last reply, and
    returns what the close returns. *)
Theorem respond_first_error (values : list any) (continue_ : bool) (r : responder) :
  let vs := sends values continue_ r in
  let r' := snd (respond values continue_ r) in
  (forall k e,
      k < length vs -> next_ok k r -> faults (ch r) (base r + k) = Some e ->
      fst (respond values continue_ r) = Some e /\
      log (ch r') = log (ch r) ++ map sent (firstn k vs) ++ [Encoded (nth k vs Nil) (Some e)] /\
      close_attempted (skipn (base r) (log (ch r'))) = false) /\
  (next_ok (length vs) r ->
      fst (respond values continue_ r) =
        (if continue_ then None else faults (ch r) (base r + length vs)) /\
      log (ch r') =
        log (ch r) ++ map sent vs ++
        (if continue_ then [] else [Closed (faults (ch r) (base r + length vs))]) /\
      close_attempted (skipn (base r) (log (ch r'))) = negb continue_).
Proof.
  cbv zeta. split.
  - intros k e Hk Hok Hf. rewrite (respond_fail values continue_ r k e Hk Hok Hf).
    simpl fst. simpl snd. unfold extend. simpl log. split; [reflexivity|].
    split; [reflexivity|].
    unfold base, prepared. simpl ch.
    rewrite skipn_app, skipn_all, Nat.sub_diag. simpl.
    unfold close_attempted. rewrite existsb_app. simpl.
    rewrite orb_false_r. clear.
    induction (firstn k (sends values continue_ r)) as [|v l IH]; [reflexivity|exact IH].
  - intros Hok. destruct (respond_ok_log values continue_ r Hok) as [Hfst Hl].
    split; [exact Hfst|]. split; [exact Hl|].
    rewrite Hl. unfold base.
    rewrite skipn_app, skipn_all, Nat.sub_diag. simpl skipn. simpl app at 1.
    unfold close_attempted.
    match goal with |- existsb ?f (?h :: ?a ++ ?b) = _ =>
      change (h :: a ++ b) with ((h :: a) ++ b) end.
    rewrite existsb_app.
    assert (Hs : forall l : list any,
               existsb (fun ev => match ev with Closed _ => true | _ => false end)
                       (map sent l) = false).
    { clear. induction l as [|v l IH]; [reflexivity | exact IH]. }
    change (sent ?h :: map sent ?l) with (map sent (h :: l)).
    rewrite Hs. destruct continue_; reflexivity.
Qed.

Lemma respond_first_error_witness :
  fst (Return [StringValue "a"; Nil] (fresh_responder (fails_at 1 EOF))) = Some EOF /\
  log (ch (snd (Return [StringValue "a"; Nil] (fresh_responder (fails_at 1 EOF))))) =
    [sent (HeaderValue {| E := None; C := false |}); Encoded (StringValue "a") (Some EOF)] /\
  close_attempted
    (skipn 0 (log (ch (snd (Return [StringValue "a"; Nil]
                                   (fresh_responder (fails_at 1 EOF))))))) = false.
Proof.
  apply (proj1 (respond_first_error [StringValue "a"; Nil] false
                  (fresh_responder (fails_at 1 EOF))) 1 EOF).
  - simpl. lia.
  - intros j Hj. assert (j = 0) as -> by lia. reflexivity.
  - reflexivity.
Defined.

(** ** The accessors of the response *)

(** C7. [Err()] and [Continue()] are functions of the decoded header alone:
    [Err()] is nil exactly when the error field is unset, and otherwise an
    error whose message is the error field; [Continue()] is the continue
    flag; neither depends on the value or on the channel of the response,
    and neither returns a new state. *)
Theorem Response_accessors (r : Response) :
  (Response_Err r = None <-> E (Response_Header r) = None) /\
  (forall s, E (Response_Header r) = Some s ->
     exists e, Response_Err r = Some e /\ Error e = s) /\
  Response_Continue r = C (Response_Header r) /\
  (forall v c,
     let r' := {| Response_Header := Response_Header r; Value := v; Channel := c |} in
     Response_Err r' = Response_Err r /\ Response_Continue r' = Response_Continue r).
Proof.
  unfold Response_Err, Response_Continue. repeat split.
  - destruct (E (Response_Header r)); [discriminate | reflexivity].
  - intros ->. reflexivity.
  - intros s ->. exists (errors_New s). split; reflexivity.
Qed.

(** ** Receiving the arguments of a call *)

(** C8. [Call.Receive] hands the decoder exactly one target, whatever [v]
    is: the caller's variable, or for a nil [v] a byte slice of its own.  In
    both cases the decoder moves on by one item, so the item is consumed; the
    error of the decoder is the error returned; and the caller gets the
    decoded value only when it gave a target and the decoding succeeded.  The
    channel is not touched. *)
Theorem Call_Receive_consumes (v : option gotype) (c : Call) :
  let target := match v with None => TBytes | Some ty => ty end in
  let out := input (Decoder c) (rpos (Decoder c)) target in
  let c' := snd (Call_Receive v c) in
  Decoder c' = snd (Decode target (Decoder c)) /\
  rpos (Decoder c') = 1 + rpos (Decoder c) /\
  calls (Decoder c') = calls (Decoder c) ++ [target] /\
  fst (fst (Call_Receive v c)) = match out with inl e => Some e | inr _ => None end /\
  snd (fst (Call_Receive v c)) =
    match v, out with
    | Some _, inr x => Some x
    | _, _ => None
    end /\
  Call_Channel c' = Call_Channel c /\
  Selector c' = Selector c.
Proof.
  cbv zeta. unfold Call_Receive, Decode.
  destruct v as [ty|];
    match goal with |- context [input ?d ?i ?t] => destruct (input d i t) end;
    repeat split.
Qed.

(** ** The header comes first *)

Lemma perform_extends (a : action) (r : responder) :
  exists evs, log (ch (perform r a)) = log (ch r) ++ evs.
Proof.
  destruct a as [v|v|v]; simpl.
  - destruct (respond_log v false r) as (evs & _ & _ & Hl & _). eauto.
  - rewrite Continue_respond. simpl.
    destruct (respond_log v true r) as (evs & _ & _ & Hl & _). eauto.
  - eexists. reflexivity.
Qed.

Lemma handler_extends (acts : list action) :
  forall r, exists evs, log (ch (handler acts r)) = log (ch r) ++ evs.
Proof.
  unfold handler. induction acts as [|a acts IH]; intros r; simpl.
  - exists []. now rewrite app_nil_r.
  - destruct (IH (perform r a)) as (evs & Hl).
    destruct (perform_extends a r) as (evs0 & Hl0).
    exists (evs0 ++ evs). now rewrite Hl, Hl0, app_assoc.
Qed.

(** C9, as the code has it.  [Send] does not look at the state of the
    responder: it hands its value to the encoder and leaves the responded
    flag as it is.  What the responder ensures is the order inside a
    response, and so the header is the first thing logged on a channel that
    was untouched, for every handler that keeps to the contract of [Send],
    that is, calls it only after [Continue]. *)
Theorem header_first_under_contract :
  (forall v r,
      Send v r = (faults (ch r) (base r), extend [Encoded v (faults (ch r) (base r))] r) /\
      responded (snd (Send v r)) = responded r) /\
  (forall acts r,
      log (ch r) = [] ->
      sends_after_Continue false acts = true ->
      forall ev, nth_error (log (ch (handler acts r))) 0 = Some ev ->
      exists h res, ev = Encoded (HeaderValue h) res).
Proof.
  split.
  - intros v r. split; reflexivity.
  - intros acts r Hr Hc ev Hev.
    destruct acts as [|a acts].
    + simpl in Hev. rewrite Hr in Hev. discriminate.
    + assert (Hfirst : exists h res evs,
                 log (ch (perform r a)) = Encoded (HeaderValue h) res :: evs).
      { destruct a as [v|v|v]; simpl in *.
        - destruct (respond_log v false r) as (evs & _ & _ & Hl & _).
          rewrite Hr in Hl. eauto.
        - rewrite Continue_respond. simpl.
          destruct (respond_log v true r) as (evs & _ & _ & Hl & _).
          rewrite Hr in Hl. eauto.
        - discriminate. }
      destruct Hfirst as (h & res & evs & Hl).
      destruct (handler_extends acts (perform r a)) as (evs' & Hl').
      change (handler (a :: acts) r) with (handler acts (perform r a)) in Hev.
      rewrite Hl', Hl in Hev. simpl in Hev. injection Hev as <-. eauto.
Qed.

Lemma header_first_under_contract_witness :
  let acts := [DoContinue [StringValue "a"]; DoSend (StringValue "b")] in
  let hdr := Encoded (HeaderValue {| E := None; C := true |}) None in
  sends_after_Continue false acts = true /\
  nth_error (log (ch (handler acts (fresh_responder reliable)))) 0 = Some hdr /\
  exists h res, hdr = Encoded (HeaderValue h) res.
Proof.
  split; [reflexivity|]. split; [reflexivity|].
  apply (proj2 header_first_under_contract
           [DoContinue [StringValue "a"]; DoSend (StringValue "b")]
           (fresh_responder reliable)); reflexivity.
Defined.

(** C9, as the specification words it, fails: on a responder that has not
    responded, [Send] does encode its value on the channel. *)
Lemma header_first_counterexample :
  ~ (forall (v : any) (r : responder),
       responded r = false ->
       wire (log (ch (snd (Send v r)))) = wire (log (ch r))).
Proof.
  intros H.
  specialize (H (StringValue "x") (fresh_responder reliable) eq_refl).
  vm_compute in H. discriminate.
Qed.

(** ** The streaming adapter *)

Section AdapterFacts.

Variable T : Type.
Variable mapstructure_Decode : any -> goerror + T.

Local Abbreviation forwards := (forwards T mapstructure_Decode).
Local Abbreviation stops := (stops T mapstructure_Decode).
Local Abbreviation loop := (ReceiveNotify_loop T mapstructure_Decode).

Lemma Response_Receive_eq (resp : Response) :
  fst (Response_Receive TAny resp) = received resp 0 /\
  log (Channel (snd (Response_Receive TAny resp))) = log (Channel resp) /\
  faults (Channel (snd (Response_Receive TAny resp))) = faults (Channel resp) /\
  forall i, received (snd (Response_Receive TAny resp)) i = received resp (S i).
Proof.
  unfold received. simpl. rewrite Nat.add_0_r. repeat split.
  intros i. now rewrite Nat.add_succ_r.
Qed.

Lemma cancelled_shift (ctx : Context) (i : nat) :
  fst (Done_ready ctx) = cancelled ctx 0 /\
  cancelled (snd (Done_ready ctx)) i = cancelled ctx (S i).
Proof.
  unfold cancelled. simpl. now rewrite Nat.add_0_r, Nat.add_succ_r.
Qed.

Lemma loop_step (fuel : nat) (ctx : Context) (resp : Response) (c : chan T) :
  loop (S fuel) ctx resp c =
    let resp1 := snd (Response_Receive TAny resp) in
    match received resp 0 with
    | inl err => Some (Returns (Some err), resp1, c)
    | inr v =>
        match mapstructure_Decode v with
        | inl err => Some (Returns (Some err), resp1, c)
        | inr vv =>
            if cancelled ctx 0 then Some (Returns None, resp1, c)
            else match chan_send T vv c with
                 | None => Some (Panics, resp1, c)
                 | Some c1 => loop fuel (snd (Done_ready ctx)) resp1 c1
                 end
        end
    end.
Proof.
  unfold received, cancelled. rewrite !Nat.add_0_r. reflexivity.
Qed.

(** The loop forwards the elements of the iterations before the one that
    stops it, and returns what that one decides. *)
Lemma loop_returns (vs : list T) :
  forall ctx resp its res,
    (forall i vv, nth_error vs i = Some vv -> forwards ctx resp i vv) ->
    stops ctx resp (length vs) res ->
    forall fuel, length vs < fuel ->
    exists resp',
      loop fuel ctx resp {| items := its; chan_closed := false |} =
        Some (Returns res, resp', {| items := its ++ vs; chan_closed := false |}) /\
      log (Channel resp') = log (Channel resp) /\
      faults (Channel resp') = faults (Channel resp).
Proof.
  induction vs as [|vv vs IH]; intros ctx resp its res Hfw Hst fuel Hfuel;
    (destruct fuel as [|fuel]; [simpl in Hfuel; lia|]);
    destruct (Response_Receive_eq resp) as (_ & Hlog & Hfl & Hshift);
    rewrite loop_step; cbv zeta; simpl length in Hst.
  - rewrite app_nil_r. exists (snd (Response_Receive TAny resp)).
    destruct Hst as [(e & He & ->) | [(v & e & Hv & He & ->) | (v & w & Hv & Hw & Hc & ->)]].
    + rewrite He. auto.
    + rewrite Hv, He. auto.
    + rewrite Hv, Hw, Hc. auto.
  - destruct (Hfw 0 vv eq_refl) as (v & Hv & Hw & Hc).
    rewrite Hv, Hw, Hc.
    change (chan_send T vv {| items := its; chan_closed := false |})
      with (Some {| items := its ++ [vv]; chan_closed := false |}).
    destruct (IH (snd (Done_ready ctx)) (snd (Response_Receive TAny resp))
                 (its ++ [vv]) res) with (fuel := fuel)
      as (resp' & Hrun & Hl' & Hf').
    + intros i w Hi. destruct (Hfw (S i) w Hi) as (v' & Hv' & Hw' & Hc').
      exists v'. rewrite Hshift, (proj2 (cancelled_shift ctx i)). auto.
    + destruct Hst as [(e & He & ->) | [(v' & e & Hv' & He & ->) |
                                        (v' & w & Hv' & Hw' & Hc' & ->)]].
      * left. exists e. rewrite Hshift. auto.
      * right. left. exists v', e. rewrite Hshift. auto.
      * right. right. exists v', w.
        rewrite Hshift, (proj2 (cancelled_shift ctx _)). auto.
    + simpl in Hfuel. lia.
    + exists resp'. rewrite Hrun, <- app_assoc. simpl.
      repeat split; congruence.
Qed.

(** As long as every iteration forwards its element the loop goes on:
    no bound on the number of iterations lets it return. *)
Lemma loop_runs_on :
  forall fuel ctx resp its,
    (forall i, exists vv, forwards ctx resp i vv) ->
    loop fuel ctx resp {| items := its; chan_closed := false |} = None.
Proof.
  induction fuel as [|fuel IH]; intros ctx resp its Hfw; [reflexivity|].
  destruct (Response_Receive_eq resp) as (_ & _ & _ & Hshift).
  rewrite loop_step. cbv zeta.
  destruct (Hfw 0) as (vv & v & Hv & Hw & Hc). rewrite Hv, Hw, Hc.
  change (chan_send T vv {| items := its; chan_closed := false |})
    with (Some {| items := its ++ [vv]; chan_closed := false |}).
  apply IH.
  intros i. destruct (Hfw (S i)) as (w & v' & Hv' & Hw' & Hc').
  exists w, v'. rewrite Hshift, (proj2 (cancelled_shift ctx i)). auto.
Qed.

(** C6. Let the first [length vs] iterations forward the elements [vs] and
    let the next one stop the loop: its receive fails, or its conversion
    fails, or the context is found cancelled once its element is decoded.
    Then, given enough iterations, [ReceiveNotify] returns: the error of
    the failed step, or nil after a cancellation.  The output channel
    holds the elements [vs] and no more (so not the element decoded when
    the cancellation was seen) and is closed, and the close of the
    response is the last operation on its channel. *)
Theorem ReceiveNotify_returns
  (ctx : Context) (resp : Response) (c : chan T) (vs : list T) (res : option goerror) :
  chan_closed c = false ->
  (forall i vv, nth_error vs i = Some vv -> forwards ctx resp i vv) ->
  stops ctx resp (length vs) res ->
  forall fuel, length vs < fuel ->
  exists resp',
    ReceiveNotify T mapstructure_Decode fuel ctx resp c =
      Some (Returns res, resp', {| items := items c ++ vs; chan_closed := true |}) /\
    log (Channel resp') =
      log (Channel resp) ++
      [Closed (faults (Channel resp) (length (log (Channel resp))))].
Proof.
  intros Hopen Hfw Hst fuel Hfuel.
  destruct c as [its closed]. simpl in Hopen. subst closed.
  destruct (loop_returns vs ctx resp its res Hfw Hst fuel Hfuel)
    as (resp1 & Hrun & Hl & Hf).
  unfold ReceiveNotify. rewrite Hrun.
  eexists. split; [reflexivity|]. simpl. now rewrite Hl, Hf.
Qed.

End AdapterFacts.

Lemma ReceiveNotify_returns_witness :
  let ctx := {| done := fun k => (k =? 1)%nat; polls := 0 |} in
  let resp := {| Response_Header := {| E := None; C := true |}; Value := Nil;
                 Channel := fresh_channel reliable
                              (reading [IntValue 1; IntValue 2; IntValue 3]) |} in
  exists resp',
    ReceiveNotify any (fun v => inr v) 5 ctx resp {| items := []; chan_closed := false |} =
      Some (Returns None, resp', {| items := [IntValue 1]; chan_closed := true |}) /\
    log (Channel resp') = [Closed None].
Proof.
  cbv zeta.
  apply (ReceiveNotify_returns any (fun v => inr v)
           {| done := fun k => (k =? 1)%nat; polls := 0 |}
           {| Response_Header := {| E := None; C := true |}; Value := Nil;
              Channel := fresh_channel reliable
                           (reading [IntValue 1; IntValue 2; IntValue 3]) |}
           {| items := []; chan_closed := false |} [IntValue 1] None).
  - reflexivity.
  - intros [|[|i]] vv Hi; simpl in Hi; try discriminate.
    injection Hi as <-. exists (IntValue 1). repeat split.
  - right. right. exists (IntValue 2), (IntValue 2). repeat split.
  - simpl. lia.
Defined.

(** ** Further properties of the responder *)

(** X1. The error convention is for a single value only.  With two values
    or more the error field of the header is left as it is and, when no send
    fails, every value goes on the wire as it was given, error objects
    included. *)
Theorem respond_many_values
  (v1 v2 : any) (vs : list any) (continue_ : bool) (r : responder) :
  let values := v1 :: v2 :: vs in
  let r' := snd (respond values continue_ r) in
  header r' = {| E := E (header r); C := continue_ |} /\
  (next_ok (S (length values)) r ->
     wire (log (ch r')) = wire (log (ch r)) ++ HeaderValue (header r') :: values).
Proof.
  cbv zeta.
  destruct (respond_log (v1 :: v2 :: vs) continue_ r) as (evs & Hh & _ & _ & _).
  assert (Hhdr : reply_header (header r) (v1 :: v2 :: vs) continue_ =
                 {| E := E (header r); C := continue_ |})
    by (destruct v1; reflexivity).
  assert (Hrep : replies (v1 :: v2 :: vs) = v1 :: v2 :: vs)
    by (destruct v1; reflexivity).
  split; [now rewrite Hh|].
  intros Hok.
  assert (Hok' : next_ok (length (sends (v1 :: v2 :: vs) continue_ r)) r).
  { unfold sends. rewrite Hrep. exact Hok. }
  destruct (respond_ok_log _ continue_ r Hok') as [_ Hl].
  rewrite Hl, Hh, !wire_app, wire_sent. unfold sends. rewrite Hrep.
  destruct continue_; simpl; now rewrite ?app_nil_r.
Qed.

Lemma respond_many_values_witness :
  wire (log (ch (snd (Return [StringValue "x"; ErrorValue (errors_New "boom")]
                             (fresh_responder reliable))))) =
  [HeaderValue {| E := None; C := false |};
   StringValue "x"; ErrorValue (errors_New "boom")].
Proof.
  apply (proj2 (respond_many_values (StringValue "x") (ErrorValue (errors_New "boom")) []
                  false (fresh_responder reliable))).
  intros j _. reflexivity.
Defined.

(** X2. [respond] never clears the error field of the header.  On a
    responder whose header already carries a message, a response whose
    values are not a single error object is sent under a header that still
    carries that message. *)
Theorem respond_keeps_error_field
  (values : list any) (continue_ : bool) (r : responder) (s : string) :
  E (header r) = Some s ->
  (forall e, values <> [ErrorValue e]) ->
  let r' := snd (respond values continue_ r) in
  header r' = {| E := Some s; C := continue_ |} /\
  exists evs,
    log (ch r') =
      log (ch r) ++
      Encoded (HeaderValue {| E := Some s; C := continue_ |}) (faults (ch r) (base r)) :: evs.
Proof.
  intros HE Hne. cbv zeta.
  destruct (respond_log values continue_ r) as (evs & Hh & _ & Hl & _).
  assert (Hhdr : reply_header (header r) values continue_ =
                 {| E := Some s; C := continue_ |}).
  { unfold reply_header. rewrite HE.
    destruct values as [|v [|v' vs]]; try destruct v; try reflexivity.
    now destruct (Hne e). }
  rewrite Hhdr in Hh, Hl. split; [exact Hh|]. exists evs. exact Hl.
Qed.

Lemma respond_keeps_error_field_witness :
  let r1 := snd (Continue [ErrorValue (errors_New "boom")] (fresh_responder reliable)) in
  header (snd (Return [StringValue "fine"] r1)) = {| E := Some "boom"; C := false |}.
Proof.
  cbv zeta.
  apply (respond_keeps_error_field [StringValue "fine"] false
           (snd (Continue [ErrorValue (errors_New "boom")] (fresh_responder reliable)))
           "boom").
  - reflexivity.
  - intros e. discriminate.
Defined.

Lemma no_close_in_sent (l : list any) : close_attempted (map sent l) = false.
Proof. induction l as [|v l IH]; [reflexivity | exact IH]. Qed.

Lemma handler_sends (xs : list any) :
  forall r, next_ok (length xs) r -> handler (map DoSend xs) r = extend (map sent xs) r.
Proof.
  unfold handler. induction xs as [|x xs IH]; intros r Hok; cbn [map fold_left].
  - now rewrite extend_nil.
  - change (perform r (DoSend x)) with (snd (Send x r)).
    rewrite Send_eq, (next_ok_head _ _ Hok). cbn [snd].
    rewrite IH by (apply next_ok_step; exact Hok).
    now rewrite (extend_cons (sent x) (map sent xs)).
Qed.

(** X3. Streaming after [Continue].  When no operation fails, a handler
    that calls [Continue] and then [Send] for each of the values [xs] leaves
    on the channel one header, the replies, and then the values [xs] in
    order: no further header, and no close. *)
Theorem Continue_then_Send (values xs : list any) (r : responder) :
  next_ok (length (sends values true r) + length xs) r ->
  let r' := handler (DoContinue values :: map DoSend xs) r in
  log (ch r') = log (ch r) ++ map sent (sends values true r ++ xs) /\
  close_attempted (skipn (base r) (log (ch r'))) = false.
Proof.
  intros Hok. cbv zeta.
  assert (Hok1 : next_ok (length (sends values true r)) r)
    by (intros j Hj; apply Hok; lia).
  assert (Hr : handler (DoContinue values :: map DoSend xs) r =
               extend (map sent xs)
                 (extend (map sent (sends values true r)) (prepared values true r))).
  { change (handler (DoContinue values :: map DoSend xs) r)
      with (handler (map DoSend xs) (snd (Continue values r))).
    rewrite Continue_respond. cbn [snd].
    rewrite (respond_ok values true r Hok1). cbv zeta. cbn [snd].
    apply handler_sends.
    intros j Hj. rewrite base_extend, length_map.
    change (faults (ch _)) with (faults (ch r)).
    change (base (prepared values true r)) with (base r).
    rewrite <- Nat.add_assoc. apply Hok. lia. }
  rewrite Hr.
  assert (Hl : log (ch (extend (map sent xs)
                   (extend (map sent (sends values true r)) (prepared values true r)))) =
               log (ch r) ++ map sent (sends values true r ++ xs)).
  { unfold extend. simpl log. now rewrite map_app, app_assoc. }
  split; [exact Hl|]. rewrite Hl. unfold base.
  rewrite skipn_app, skipn_all, Nat.sub_diag. cbn [skipn app].
  apply no_close_in_sent.
Qed.

Lemma Continue_then_Send_witness :
  log (ch (handler (DoContinue [StringValue "a"] :: map DoSend [IntValue 1; IntValue 2])
                   (fresh_responder reliable))) =
  map sent [HeaderValue {| E := None; C := true |}; StringValue "a";
            IntValue 1; IntValue 2].
Proof.
  apply (proj1 (Continue_then_Send [StringValue "a"] [IntValue 1; IntValue 2]
                  (fresh_responder reliable) (fun j _ => eq_refl))).
Defined.

(** ** Further properties of the streaming adapter *)

Section AdapterMore.

Variable T : Type.
Variable mapstructure_Decode : any -> goerror + T.

Local Abbreviation forwards := (forwards T mapstructure_Decode).
Local Abbreviation loop := (ReceiveNotify_loop T mapstructure_Decode).

Lemma loop_receives :
  forall fuel ctx resp c out resp' c',
    loop fuel ctx resp c = Some (out, resp', c') ->
    exists ws,
      items c' = items c ++ ws /\
      calls (rd (Channel resp')) =
        calls (rd (Channel resp)) ++ repeat TAny (S (length ws)) /\
      log (Channel resp') = log (Channel resp) /\
      faults (Channel resp') = faults (Channel resp).
Proof.
  induction fuel as [|fuel IH]; intros ctx resp c out resp' c' H; [discriminate|].
  rewrite loop_step in H. cbv zeta in H.
  assert (Hstop : forall o,
             Some (o, snd (Response_Receive TAny resp), c) = Some (out, resp', c') ->
             exists ws,
               items c' = items c ++ ws /\
               calls (rd (Channel resp')) =
                 calls (rd (Channel resp)) ++ repeat TAny (S (length ws)) /\
               log (Channel resp') = log (Channel resp) /\
               faults (Channel resp') = faults (Channel resp)).
  { intros o Ho. injection Ho as _ <- <-. exists []. rewrite app_nil_r. repeat split. }
  destruct (received resp 0) as [e|v]; [eauto|].
  destruct (mapstructure_Decode v) as [e|vv]; [eauto|].
  destruct (cancelled ctx 0); [eauto|].
  unfold chan_send in H. destruct (chan_closed c); [eauto|].
  destruct (IH _ _ _ _ _ _ H) as (ws & Hi & Hc & Hl & Hf).
  exists (vv :: ws). simpl items in Hi. rewrite Hi, Hc, Hl, Hf.
  simpl. rewrite <- !app_assoc. repeat split.
Qed.

(** X4. Whenever [ReceiveNotify] ends, it has called [Receive] exactly once
    more than it has delivered elements: the last value received, if any, is
    never delivered. *)
Theorem ReceiveNotify_receives_one_more
  (fuel : nat) (ctx : Context) (resp resp' : Response) (c c' : chan T)
  (out : outcome (option goerror)) :
  ReceiveNotify T mapstructure_Decode fuel ctx resp c = Some (out, resp', c') ->
  exists ws,
    items c' = items c ++ ws /\
    calls (rd (Channel resp')) =
      calls (rd (Channel resp)) ++ repeat TAny (S (length ws)).
Proof.
  unfold ReceiveNotify. intros H.
  destruct (loop fuel ctx resp c) as [[[o resp1] c1]|] eqn:Hloop; [|discriminate].
  destruct (loop_receives _ _ _ _ _ _ _ Hloop) as (ws & Hi & Hc & _ & _).
  exists ws. simpl in H. unfold chan_close in H.
  destruct (chan_closed c1); injection H as _ <- <-; simpl; auto.
Qed.

(** X5. Called with an output channel that is already closed,
    [ReceiveNotify] panics after a single receive, whatever that receive
    returns: the error is lost.  The response is closed before the panic,
    and nothing is delivered. *)
Theorem ReceiveNotify_closed_output
  (fuel : nat) (ctx : Context) (resp : Response) (c : chan T) :
  chan_closed c = true ->
  exists resp',
    ReceiveNotify T mapstructure_Decode (S fuel) ctx resp c = Some (Panics, resp', c) /\
    calls (rd (Channel resp')) = calls (rd (Channel resp)) ++ [TAny] /\
    log (Channel resp') =
      log (Channel resp) ++
      [Closed (faults (Channel resp) (length (log (Channel resp))))].
Proof.
  intros Hc.
  assert (Hloop : exists o,
             loop (S fuel) ctx resp c = Some (o, snd (Response_Receive TAny resp), c)).
  { rewrite loop_step. cbv zeta.
    destruct (received resp 0) as [e|v]; [eauto|].
    destruct (mapstructure_Decode v) as [e|vv]; [eauto|].
    destruct (cancelled ctx 0); [eauto|].
    unfold chan_send. rewrite Hc. eauto. }
  destruct Hloop as [o Hloop].
  unfold ReceiveNotify. rewrite Hloop. simpl. unfold chan_close. rewrite Hc.
  eexists. repeat split.
Qed.

(** X6. The context is polled only after a value was received and
    converted, and a live context never stops the loop: while every
    iteration receives a value, converts it and finds the context live,
    [ReceiveNotify] does not return, however many iterations it is given. *)
Theorem ReceiveNotify_runs_on
  (ctx : Context) (resp : Response) (c : chan T) :
  chan_closed c = false ->
  (forall i, exists vv, forwards ctx resp i vv) ->
  forall fuel, ReceiveNotify T mapstructure_Decode fuel ctx resp c = None.
Proof.
  intros Hc Hfw fuel. destruct c as [its closed]. simpl in Hc. subst closed.
  unfold ReceiveNotify. now rewrite (loop_runs_on T mapstructure_Decode fuel ctx resp its Hfw).
Qed.

End AdapterMore.

Lemma ReceiveNotify_receives_one_more_witness :
  let ctx := {| done := fun k => (k =? 1)%nat; polls := 0 |} in
  let resp := {| Response_Header := {| E := None; C := true |}; Value := Nil;
                 Channel := fresh_channel reliable
                              (reading [IntValue 1; IntValue 2; IntValue 3]) |} in
  exists ws,
    [IntValue 1] = [] ++ ws /\
    [TAny; TAny] = [] ++ repeat TAny (S (length ws)).
Proof.
  cbv zeta.
  apply (ReceiveNotify_receives_one_more any (fun v => inr v) 5
           {| done := fun k => (k =? 1)%nat; polls := 0 |}
           {| Response_Header := {| E := None; C := true |}; Value := Nil;
              Channel := fresh_channel reliable
                           (reading [IntValue 1; IntValue 2; IntValue 3]) |}
           {| Response_Header := {| E := None; C := true |}; Value := Nil;
              Channel := {| log := [Closed None]; faults := reliable;
                            rd := {| input := input (reading [IntValue 1; IntValue 2; IntValue 3]);
                                     rpos := 2; calls := [TAny; TAny] |} |} |}
           {| items := []; chan_closed := false |}
           {| items := [IntValue 1]; chan_closed := true |}
           (Returns None)).
  reflexivity.
Defined.

Lemma ReceiveNotify_closed_output_witness :
  exists resp',
    ReceiveNotify any (fun v => inr v) 1
      {| done := fun _ => false; polls := 0 |}
      {| Response_Header := {| E := None; C := true |}; Value := Nil;
         Channel := fresh_channel reliable (reading [IntValue 1]) |}
      {| items := []; chan_closed := true |} =
    Some (Panics, resp', {| items := []; chan_closed := true |}) /\
    calls (rd (Channel resp')) = [TAny] /\
    log (Channel resp') = [Closed None].
Proof.
  apply (ReceiveNotify_closed_output any (fun v => inr v) 0
           {| done := fun _ => false; polls := 0 |}
           {| Response_Header := {| E := None; C := true |}; Value := Nil;
              Channel := fresh_channel reliable (reading [IntValue 1]) |}
           {| items := []; chan_closed := true |}).
  reflexivity.
Defined.

Lemma ReceiveNotify_runs_on_witness :
  ReceiveNotify any (fun v => inr v) 100
    {| done := fun _ => false; polls := 0 |}
    {| Response_Header := {| E := None; C := true |}; Value := Nil;
       Channel := fresh_channel reliable
                    {| input := fun i _ => inr (IntValue (Z.of_nat i));
                       rpos := 0; calls := [] |} |}
    {| items := []; chan_closed := false |} = None.
Proof.
  apply (ReceiveNotify_runs_on any (fun v => inr v)).
  - reflexivity.
  - intros i. exists (IntValue (Z.of_nat i)), (IntValue (Z.of_nat i)). repeat split.
Defined.

(** ** The interop service *)

(** X7. A handler whose first [Receive] fails gives up without a word: the
    responder is left as it was (no header, no reply, no close, not marked
    as responded) and no callback is made.  This holds for [Unary], [Stream]
    and [Error] alike. *)
Theorem handlers_silent_on_receive_failure
  (resp : responder) (call : Call) (caller : Caller) (fuel : nat) :
  ((exists e, input (Decoder call) (rpos (Decoder call)) TAny = inl e) ->
     InteropService_Unary resp call caller =
       (resp, snd (Call_Receive (Some TAny) call), caller) /\
     InteropService_Stream fuel resp call caller =
       Some (resp, snd (Call_Receive (Some TAny) call), caller, None)) /\
  ((exists e, input (Decoder call) (rpos (Decoder call)) TString = inl e) ->
     InteropService_Error resp call = (resp, snd (Call_Receive (Some TString) call))).
Proof.
  split; intros [e He];
    unfold InteropService_Unary, InteropService_Stream, InteropService_Error,
      Call_Receive, Decode;
    rewrite He; repeat split.
Qed.

Lemma handlers_silent_on_receive_failure_witness :
  let call := {| Call_Header := {| CallHeader_S := "Error" |};
                 Decoder := no_input;
                 Call_Channel := fresh_channel reliable no_input |} in
  InteropService_Error (fresh_responder reliable) call =
    (fresh_responder reliable, snd (Call_Receive (Some TString) call)).
Proof.
  cbv zeta.
  apply (proj2 (handlers_silent_on_receive_failure (fresh_responder reliable)
                  {| Call_Header := {| CallHeader_S := "Error" |};
                     Decoder := no_input;
                     Call_Channel := fresh_channel reliable no_input |}
                  {| answer := fun _ _ _ =>
                       ({| Response_Header := {| E := None; C := false |}; Value := Nil;
                           Channel := fresh_channel reliable no_input |}, Nil, None);
                     made := [] |} 0)).
  exists EOF. reflexivity.
Defined.

(** X8. When the callback of [Unary] or [Stream] fails, the handler gives
    up in the same way: the callback was made once, with the selector of the
    handler and the argument received, and the responder is left as it was. *)
Theorem handlers_silent_on_callback_failure
  (resp : responder) (call : Call) (caller : Caller) (fuel : nat)
  (p ret : any) (stream : Response) (e : goerror) :
  argument call TAny p ->
  (answers caller "UnaryCallback" p (stream, ret, Some e) ->
     fst (fst (InteropService_Unary resp call caller)) = resp /\
     made (snd (InteropService_Unary resp call caller)) =
       made caller ++ [("UnaryCallback", p)]) /\
  (answers caller "StreamCallback" p (stream, ret, Some e) ->
     exists call' caller',
       InteropService_Stream fuel resp call caller =
         Some (resp, call', caller', Some stream) /\
       made caller' = made caller ++ [("StreamCallback", p)]).
Proof.
  unfold argument, answers. intros Hp.
  split; intros Ha;
    unfold InteropService_Unary, InteropService_Stream, Call_Receive, Decode,
      Caller_Call;
    rewrite Hp; cbn [any_var]; rewrite Ha.
  - split; reflexivity.
  - eexists _, _. split; reflexivity.
Qed.

(** X9. When the argument arrives and the callback succeeds, [Unary] calls
    back once, with the selector [UnaryCallback] and the argument as it was
    received, and responds with [Return] on the reply of the callback: when
    no send fails, the channel gets the header, the reply, and the close. *)
Theorem Unary_returns_callback_reply
  (resp : responder) (call : Call) (caller : Caller)
  (p ret : any) (stream : Response) :
  argument call TAny p ->
  answers caller "UnaryCallback" p (stream, ret, None) ->
  let resp' := fst (fst (InteropService_Unary resp call caller)) in
  resp' = snd (Return [ret] resp) /\
  made (snd (InteropService_Unary resp call caller)) =
    made caller ++ [("UnaryCallback", p)] /\
  (next_ok 2 resp ->
     log (ch resp') =
       log (ch resp) ++
       [sent (HeaderValue (reply_header (header resp) [ret] false))] ++
       map sent (replies [ret]) ++
       [Closed (faults (ch resp) (base resp + 2))]).
Proof.
  unfold argument, answers. intros Hp Ha. cbv zeta.
  unfold InteropService_Unary, Call_Receive, Decode, Caller_Call.
  rewrite Hp. cbn [any_var]. rewrite Ha.
  destruct (Return [ret] resp) as [err resp1] eqn:HR. cbn [fst snd].
  split; [reflexivity|]. split; [reflexivity|].
  intros Hok.
  assert (Hlen : length (sends [ret] false resp) = 2) by (destruct ret; reflexivity).
  assert (Hok' : next_ok (length (sends [ret] false resp)) resp) by (now rewrite Hlen).
  destruct (respond_ok_log [ret] false resp Hok') as [_ Hl].
  unfold Return in HR. rewrite HR in Hl. cbn [snd] in Hl.
  rewrite Hl, Hlen. reflexivity.
Qed.

Lemma Unary_returns_callback_reply_witness :
  let call := {| Call_Header := {| CallHeader_S := "Unary" |};
                 Decoder := reading [IntValue 7];
                 Call_Channel := fresh_channel reliable no_input |} in
  let stream := {| Response_Header := {| E := None; C := false |}; Value := Nil;
                   Channel := fresh_channel reliable no_input |} in
  let caller := {| answer := fun _ _ v => (stream, v, None); made := [] |} in
  log (ch (fst (fst (InteropService_Unary (fresh_responder reliable) call caller)))) =
  [sent (HeaderValue {| E := None; C := false |}); sent (IntValue 7); Closed None].
Proof.
  cbv zeta.
  apply (proj2 (proj2
    (Unary_returns_callback_reply (fresh_responder reliable)
       {| Call_Header := {| CallHeader_S := "Unary" |};
          Decoder := reading [IntValue 7];
          Call_Channel := fresh_channel reliable no_input |}
       {| answer := fun _ _ v =>
            ({| Response_Header := {| E := None; C := false |}; Value := Nil;
                Channel := fresh_channel reliable no_input |}, v, None);
          made := [] |}
       (IntValue 7) (IntValue 7)
       {| Response_Header := {| E := None; C := false |}; Value := Nil;
          Channel := fresh_channel reliable no_input |}
       eq_refl eq_refl))).
  intros j _. reflexivity.
Defined.

(** X10. [Error] turns the string it receives into the error of the
    response: when the string [t] arrives and no send fails, the channel
    gets a header whose error field is [t], a null reply, and the close; a
    [Response] built from that header has an [Err()] whose message is [t],
    also when [t] is empty. *)
Theorem Error_reports_message (resp : responder) (call : Call) (t : string) :
  argument call TString (StringValue t) ->
  next_ok 2 resp ->
  let resp' := fst (InteropService_Error resp call) in
  let h := {| E := Some t; C := false |} in
  log (ch resp') =
    log (ch resp) ++
    [sent (HeaderValue h); sent Nil; Closed (faults (ch resp) (base resp + 2))] /\
  (forall r, Response_Header r = h ->
     exists e, Response_Err r = Some e /\ Error e = t).
Proof.
  unfold argument. intros Hp Hok. cbv zeta.
  unfold InteropService_Error, Call_Receive, Decode. rewrite Hp. cbn [string_var].
  destruct (Return [ErrorValue (errors_New t)] resp) as [err resp1] eqn:HR.
  cbn [fst]. split.
  - destruct (respond_ok_log [ErrorValue (errors_New t)] false resp Hok) as [_ Hl].
    unfold Return in HR. rewrite HR in Hl. exact Hl.
  - intros r Hr. exists (errors_New t). unfold Response_Err. rewrite Hr.
    split; reflexivity.
Qed.

Lemma Error_reports_message_witness :
  let call := {| Call_Header := {| CallHeader_S := "Error" |};
                 Decoder := reading [StringValue "boom"];
                 Call_Channel := fresh_channel reliable no_input |} in
  log (ch (fst (InteropService_Error (fresh_responder reliable) call))) =
  [sent (HeaderValue {| E := Some "boom"; C := false |}); sent Nil; Closed None].
Proof.
  cbv zeta.
  apply (proj1
    (Error_reports_message (fresh_responder reliable)
       {| Call_Header := {| CallHeader_S := "Error" |};
          Decoder := reading [StringValue "boom"];
          Call_Channel := fresh_channel reliable no_input |}
       "boom" eq_refl (fun j _ => eq_refl))).
Defined.

Lemma handlers_silent_on_callback_failure_witness :
  let call := {| Call_Header := {| CallHeader_S := "Unary" |};
                 Decoder := reading [IntValue 7];
                 Call_Channel := fresh_channel reliable no_input |} in
  let stream := {| Response_Header := {| E := Some "no"; C := false |}; Value := Nil;
                   Channel := fresh_channel reliable no_input |} in
  let caller := {| answer := fun _ _ _ => (stream, Nil, Some (errors_New "no"));
                   made := [] |} in
  fst (fst (InteropService_Unary (fresh_responder reliable) call caller)) =
    fresh_responder reliable /\
  made (snd (InteropService_Unary (fresh_responder reliable) call caller)) =
    [("UnaryCallback", IntValue 7)].
Proof.
  cbv zeta.
  apply (proj1
    (handlers_silent_on_callback_failure (fresh_responder reliable)
       {| Call_Header := {| CallHeader_S := "Unary" |};
          Decoder := reading [IntValue 7];
          Call_Channel := fresh_channel reliable no_input |}
       {| answer := fun _ _ _ =>
            ({| Response_Header := {| E := Some "no"; C := false |}; Value := Nil;
                Channel := fresh_channel reliable no_input |}, Nil,
             Some (errors_New "no"));
          made := [] |}
       0 (IntValue 7) Nil
       {| Response_Header := {| E := Some "no"; C := false |}; Value := Nil;
          Channel := fresh_channel reliable no_input |}
       (errors_New "no") eq_refl)).
  reflexivity.
Defined.

(** *** The relay loop of [Stream] *)

Lemma relay_step (fuel : nat) (stream : Response) (resp : responder) :
  InteropService_Stream_relay (S fuel) stream resp =
    let stream1 := snd (Response_Receive TAny stream) in
    match received stream 0 with
    | inl err => Some (err, stream1, resp)
    | inr v =>
        match faults (ch resp) (base resp) with
        | Some e => Some (e, stream1, extend [Encoded v (Some e)] resp)
        | None => InteropService_Stream_relay fuel stream1 (extend [sent v] resp)
        end
    end.
Proof.
  unfold received. rewrite Nat.add_0_r. cbn [InteropService_Stream_relay].
  change (Response_Receive TAny stream)
    with (input (rd (Channel stream)) (rpos (rd (Channel stream))) TAny,
          snd (Response_Receive TAny stream)).
  cbv iota beta.
  destruct (input (rd (Channel stream)) (rpos (rd (Channel stream))) TAny) as [e|v];
    [reflexivity|].
  rewrite Send_eq. destruct (faults (ch resp) (base resp)); reflexivity.
Qed.

Lemma yields_tail (stream : Response) (v : any) (vs : list any) :
  yields stream (v :: vs) ->
  received stream 0 = inr v /\ yields (snd (Response_Receive TAny stream)) vs.
Proof.
  intros H. split; [exact (H 0 v eq_refl)|].
  intros i w Hi. destruct (Response_Receive_eq stream) as (_ & _ & _ & Hshift).
  rewrite Hshift. exact (H (S i) w Hi).
Qed.

Lemma Receive_calls (stream : Response) :
  calls (rd (Channel (snd (Response_Receive TAny stream)))) =
    calls (rd (Channel stream)) ++ [TAny] /\
  log (Channel (snd (Response_Receive TAny stream))) = log (Channel stream) /\
  faults (Channel (snd (Response_Receive TAny stream))) = faults (Channel stream).
Proof. repeat split. Qed.

(** The relay forwards the values the stream yields, as long as the sends
    succeed, and then goes on with what is left. *)
Lemma relay_forwards_prefix (vs : list any) :
  forall stream resp fuel,
    yields stream vs -> next_ok (length vs) resp ->
    exists stream',
      InteropService_Stream_relay (length vs + fuel) stream resp =
        InteropService_Stream_relay fuel stream' (extend (map sent vs) resp) /\
      (forall i, received stream' i = received stream (length vs + i)) /\
      calls (rd (Channel stream')) =
        calls (rd (Channel stream)) ++ repeat TAny (length vs) /\
      log (Channel stream') = log (Channel stream) /\
      faults (Channel stream') = faults (Channel stream).
Proof.
  induction vs as [|v vs IH]; intros stream resp fuel Hy Hok.
  - exists stream. rewrite extend_nil, app_nil_r. repeat split.
  - destruct (yields_tail _ _ _ Hy) as [H0 Hy'].
    destruct (Receive_calls stream) as (Hc & Hl & Hf).
    destruct (Response_Receive_eq stream) as (_ & _ & _ & Hshift).
    cbn [length Nat.add]. rewrite relay_step. cbv zeta.
    rewrite H0, (next_ok_head _ _ Hok).
    destruct (IH (snd (Response_Receive TAny stream)) (extend [sent v] resp) fuel Hy')
      as (stream' & Hrun & Hrec & Hc' & Hl' & Hf').
    { apply next_ok_step. exact Hok. }
    exists stream'. rewrite Hrun, Hc', Hl', Hf', Hc, Hl, Hf.
    cbn [map repeat]. rewrite (extend_cons (sent v) (map sent vs)), <- app_assoc.
    repeat split. intros i. now rewrite Hrec, Hshift.
Qed.

(** X11. The relay forwards in order.  When the stream yields the values
    [vs] and then fails with [e], and the sends succeed, the relay sends
    exactly the values [vs] on the responder, in order, and ends with [e];
    it sends no header and closes nothing, and it has received once more
    than it has sent. *)
Theorem Stream_relay_forwards
  (vs : list any) (e : goerror) (stream : Response) (resp : responder) (fuel : nat) :
  yields stream vs ->
  received stream (length vs) = inl e ->
  next_ok (length vs) resp ->
  length vs < fuel ->
  exists stream',
    InteropService_Stream_relay fuel stream resp =
      Some (e, stream', extend (map sent vs) resp) /\
    calls (rd (Channel stream')) =
      calls (rd (Channel stream)) ++ repeat TAny (S (length vs)) /\
    log (Channel stream') = log (Channel stream).
Proof.
  intros Hy He Hok Hfuel.
  destruct (relay_forwards_prefix vs stream resp (fuel - length vs) Hy Hok)
    as (s1 & Hrun & Hrec & Hc & Hl & _).
  replace (length vs + (fuel - length vs)) with fuel in Hrun by lia.
  rewrite Hrun.
  destruct (fuel - length vs) as [|k] eqn:Hk; [lia|].
  rewrite relay_step. cbv zeta. rewrite Hrec, Nat.add_0_r, He.
  destruct (Receive_calls s1) as (Hc1 & Hl1 & _).
  eexists. split; [reflexivity|]. rewrite Hc1, Hl1, Hc, Hl.
  split; [|reflexivity].
  rewrite <- app_assoc. f_equal.
  clear. induction (length vs) as [|n IH]; [reflexivity|].
  cbn [repeat app]. now rewrite IH.
Qed.

(** X12. The relay stops at the first send that fails.  The value whose
    send failed was received and is lost: the relay ends with the error of
    the send, sends nothing more and receives nothing more. *)
Theorem Stream_relay_stops_at_failed_send
  (vs : list any) (v : any) (e : goerror) (stream : Response) (resp : responder)
  (fuel : nat) :
  yields stream (vs ++ [v]) ->
  next_ok (length vs) resp ->
  faults (ch resp) (base resp + length vs) = Some e ->
  length vs < fuel ->
  exists stream',
    InteropService_Stream_relay fuel stream resp =
      Some (e, stream', extend (map sent vs ++ [Encoded v (Some e)]) resp) /\
    calls (rd (Channel stream')) =
      calls (rd (Channel stream)) ++ repeat TAny (S (length vs)).
Proof.
  intros Hy Hok Hf Hfuel.
  assert (Hy1 : yields stream vs).
  { intros i w Hi. apply Hy. rewrite nth_error_app1; [exact Hi|].
    apply nth_error_Some. congruence. }
  assert (Hv : received stream (length vs) = inr v).
  { apply Hy. rewrite nth_error_app2, Nat.sub_diag by lia. reflexivity. }
  destruct (relay_forwards_prefix vs stream resp (fuel - length vs) Hy1 Hok)
    as (s1 & Hrun & Hrec & Hc & _ & _).
  replace (length vs + (fuel - length vs)) with fuel in Hrun by lia.
  rewrite Hrun.
  destruct (fuel - length vs) as [|k] eqn:Hk; [lia|].
  rewrite relay_step. cbv zeta. rewrite Hrec, Nat.add_0_r, Hv.
  change (faults (ch (extend (map sent vs) resp))) with (faults (ch resp)).
  rewrite base_extend, length_map, Hf.
  destruct (Receive_calls s1) as (Hc1 & _ & _).
  eexists. split.
  - rewrite <- extend_app. reflexivity.
  - rewrite Hc1, Hc, <- app_assoc. f_equal.
    clear. induction (length vs) as [|n IH]; [reflexivity|].
    cbn [repeat app]. now rewrite IH.
Qed.

Lemma Stream_relay_forwards_witness :
  exists stream',
    InteropService_Stream_relay 3
      {| Response_Header := {| E := None; C := true |}; Value := Nil;
         Channel := fresh_channel reliable (reading [IntValue 1; IntValue 2]) |}
      (fresh_responder reliable) =
    Some (EOF, stream', extend (map sent [IntValue 1; IntValue 2]) (fresh_responder reliable)) /\
    calls (rd (Channel stream')) = [] ++ repeat TAny 3 /\
    log (Channel stream') = [].
Proof.
  apply (Stream_relay_forwards [IntValue 1; IntValue 2] EOF
           {| Response_Header := {| E := None; C := true |}; Value := Nil;
              Channel := fresh_channel reliable (reading [IntValue 1; IntValue 2]) |}
           (fresh_responder reliable) 3).
  - intros [|[|i]] v Hi; cbn in Hi.
    + injection Hi as <-. reflexivity.
    + injection Hi as <-. reflexivity.
    + destruct i; discriminate.
  - reflexivity.
  - intros j _. reflexivity.
  - simpl. lia.
Defined.

Lemma Stream_relay_stops_at_failed_send_witness :
  exists stream',
    InteropService_Stream_relay 5
      {| Response_Header := {| E := None; C := true |}; Value := Nil;
         Channel := fresh_channel reliable
                      (reading [IntValue 1; IntValue 2; IntValue 3]) |}
      (fresh_responder (fails_at 1 EOF)) =
    Some (EOF, stream',
          extend (map sent [IntValue 1] ++ [Encoded (IntValue 2) (Some EOF)])
                 (fresh_responder (fails_at 1 EOF))) /\
    calls (rd (Channel stream')) = [] ++ repeat TAny 2.
Proof.
  apply (Stream_relay_stops_at_failed_send [IntValue 1] (IntValue 2) EOF
           {| Response_Header := {| E := None; C := true |}; Value := Nil;
              Channel := fresh_channel reliable
                           (reading [IntValue 1; IntValue 2; IntValue 3]) |}
           (fresh_responder (fails_at 1 EOF)) 5).
  - intros [|[|i]] v Hi; cbn in Hi.
    + injection Hi as <-. reflexivity.
    + injection Hi as <-. reflexivity.
    + destruct i; discriminate.
  - intros j Hj. simpl in Hj. assert (j = 0) as -> by lia. reflexivity.
  - reflexivity.
  - simpl. lia.
Defined.

(** *** [Stream] as a whole *)

Lemma sends_single (ret : any) (continue_ : bool) (r : responder) :
  length (sends [ret] continue_ r) = 2.
Proof. destruct ret; reflexivity. Qed.

(** What [Stream] leaves on the responder's channel when everything up to
    the end of the callback's stream succeeds. *)
Lemma Stream_runs
  (resp : responder) (call : Call) (caller : Caller) (fuel : nat)
  (p ret : any) (stream : Response) (vs : list any) (e : goerror) :
  argument call TAny p ->
  answers caller "StreamCallback" p (stream, ret, None) ->
  yields stream vs ->
  received stream (length vs) = inl e ->
  next_ok (2 + length vs) resp ->
  length vs < fuel ->
  exists resp' call' caller' stream',
    InteropService_Stream fuel resp call caller =
      Some (resp', call', caller', Some stream') /\
    made caller' = made caller ++ [("StreamCallback", p)] /\
    log (ch resp') =
      log (ch resp) ++ map sent (sends [ret] true resp ++ vs) ++
      [Closed (faults (ch resp) (base resp + (2 + length vs)))].
Proof.
  unfold argument, answers. intros Hp Ha Hy He Hok Hfuel.
  assert (Hok1 : next_ok (length (sends [ret] true resp)) resp).
  { rewrite sends_single. intros j Hj. apply Hok. lia. }
  set (r1 := extend (map sent (sends [ret] true resp)) (prepared [ret] true resp)).
  assert (Hok2 : next_ok (length vs) r1).
  { intros j Hj. unfold r1. rewrite base_extend, length_map, sends_single.
    change (faults (ch _)) with (faults (ch resp)).
    change (base (prepared [ret] true resp)) with (base resp).
    rewrite <- Nat.add_assoc. apply Hok. lia. }
  destruct (relay_forwards_prefix vs stream r1 (fuel - length vs) Hy Hok2)
    as (s1 & Hrun & Hrec & _ & _ & _).
  replace (length vs + (fuel - length vs)) with fuel in Hrun by lia.
  destruct (fuel - length vs) as [|k] eqn:Hk; [lia|].
  rewrite relay_step in Hrun. cbv zeta in Hrun.
  rewrite Hrec, Nat.add_0_r, He in Hrun.
  unfold InteropService_Stream, Call_Receive, Decode, Caller_Call.
  rewrite Hp. cbn [any_var]. rewrite Ha.
  rewrite Continue_respond, (respond_ok [ret] true resp Hok1).
  cbv beta iota zeta. cbn [fst snd]. cbv beta iota zeta.
  fold r1. rewrite Hrun. cbn [Response_Close on_Channel]. rewrite Close_eq.
  eexists _, _, _, _. split; [reflexivity|]. split; [reflexivity|].
  unfold r1, extend. cbn [log ch]. unfold base. cbn [log ch].
  rewrite !length_app, !length_map, sends_single.
  change (log (ch (prepared [ret] true resp))) with (log (ch resp)).
  rewrite map_app, <- !app_assoc.
  replace (length (log (ch resp)) + 2 + length vs)
    with (length (log (ch resp)) + (2 + length vs)) by lia.
  reflexivity.
Qed.

(** X13. When the argument arrives, the callback succeeds, the response
    can be sent, and the callback's stream yields the values [vs] before it
    ends, while no send fails, [Stream] leaves on the channel of the call:
    the header with the continue flag set, the first reply, the values [vs]
    in order, and then the close.  It has called back once, with the
    selector [StreamCallback] and the argument as it was received. *)
Theorem Stream_relays_and_closes
  (resp : responder) (call : Call) (caller : Caller) (fuel : nat)
  (p ret : any) (stream : Response) (vs : list any) (e : goerror) :
  argument call TAny p ->
  answers caller "StreamCallback" p (stream, ret, None) ->
  yields stream vs ->
  received stream (length vs) = inl e ->
  next_ok (2 + length vs) resp ->
  length vs < fuel ->
  exists resp' call' caller' stream',
    InteropService_Stream fuel resp call caller =
      Some (resp', call', caller', Some stream') /\
    made caller' = made caller ++ [("StreamCallback", p)] /\
    log (ch resp') =
      log (ch resp) ++
      sent (HeaderValue (reply_header (header resp) [ret] true)) ::
      map sent (replies [ret]) ++ map sent vs ++
      [Closed (faults (ch resp) (base resp + (2 + length vs)))].
Proof.
  intros Hp Ha Hy He Hok Hfuel.
  destruct (Stream_runs resp call caller fuel p ret stream vs e Hp Ha Hy He Hok Hfuel)
    as (resp' & call' & caller' & stream' & Hrun & Hm & Hl).
  exists resp', call', caller', stream'. split; [exact Hrun|]. split; [exact Hm|].
  rewrite Hl. unfold sends. rewrite map_app. cbn [map app].
  now rewrite <- app_assoc.
Qed.

Lemma Stream_relays_and_closes_witness :
  let call := {| Call_Header := {| CallHeader_S := "Stream" |};
                 Decoder := reading [StringValue "go"];
                 Call_Channel := fresh_channel reliable no_input |} in
  let stream := {| Response_Header := {| E := None; C := true |}; Value := Nil;
                   Channel := fresh_channel reliable (reading [IntValue 1; IntValue 2]) |} in
  let caller := {| answer := fun _ _ _ => (stream, BoolValue true, None); made := [] |} in
  exists resp' call' caller' stream',
    InteropService_Stream 3 (fresh_responder reliable) call caller =
      Some (resp', call', caller', Some stream') /\
    made caller' = [("StreamCallback", StringValue "go")] /\
    log (ch resp') =
      [sent (HeaderValue {| E := None; C := true |}); sent (BoolValue true);
       sent (IntValue 1); sent (IntValue 2); Closed None].
Proof.
  cbv zeta.
  apply (Stream_relays_and_closes (fresh_responder reliable)
           {| Call_Header := {| CallHeader_S := "Stream" |};
              Decoder := reading [StringValue "go"];
              Call_Channel := fresh_channel reliable no_input |}
           {| answer := fun _ _ _ =>
                ({| Response_Header := {| E := None; C := true |}; Value := Nil;
                    Channel := fresh_channel reliable (reading [IntValue 1; IntValue 2]) |},
                 BoolValue true, None);
              made := [] |}
           3 (StringValue "go") (BoolValue true)
           {| Response_Header := {| E := None; C := true |}; Value := Nil;
              Channel := fresh_channel reliable (reading [IntValue 1; IntValue 2]) |}
           [IntValue 1; IntValue 2] EOF).
  - reflexivity.
  - reflexivity.
  - intros [|[|i]] v Hi; cbn in Hi.
    + injection Hi as <-. reflexivity.
    + injection Hi as <-. reflexivity.
    + destruct i; discriminate.
  - reflexivity.
  - intros j _. reflexivity.
  - simpl. lia.
Defined.

(** X14. When [Continue] fails in [Stream], the handler returns at once:
    the deferred closes are not yet in place, so neither the channel of the
    call nor the stream the callback opened is closed by the handler, and
    nothing is relayed. *)
Theorem Stream_leaves_open_on_Continue_failure
  (resp : responder) (call : Call) (caller : Caller) (fuel : nat)
  (p ret : any) (stream : Response) (k : nat) (e : goerror) :
  argument call TAny p ->
  answers caller "StreamCallback" p (stream, ret, None) ->
  k < 2 -> next_ok k resp -> faults (ch resp) (base resp + k) = Some e ->
  exists resp' call' caller',
    InteropService_Stream fuel resp call caller =
      Some (resp', call', caller', Some stream) /\
    resp' = snd (respond [ret] true resp) /\
    close_attempted (skipn (base resp) (log (ch resp'))) = false.
Proof.
  unfold argument, answers. intros Hp Ha Hk Hok Hf.
  assert (Hk' : k < length (sends [ret] true resp)) by (now rewrite sends_single).
  pose proof (respond_fail [ret] true resp k e Hk' Hok Hf) as Hr.
  unfold InteropService_Stream, Call_Receive, Decode, Caller_Call.
  rewrite Hp. cbn [any_var]. rewrite Ha.
  rewrite Continue_respond, Hr. cbv beta iota zeta. cbn [fst snd].
  eexists _, _, _. split; [reflexivity|]. split; [reflexivity|].
  unfold extend, base, prepared. cbn [log ch].
  rewrite skipn_app, skipn_all, Nat.sub_diag. cbn [skipn app].
  unfold close_attempted. rewrite existsb_app.
  fold (close_attempted (map sent (firstn k (sends [ret] true resp)))).
  rewrite no_close_in_sent. reflexivity.
Qed.

Lemma Stream_leaves_open_on_Continue_failure_witness :
  let call := {| Call_Header := {| CallHeader_S := "Stream" |};
                 Decoder := reading [StringValue "go"];
                 Call_Channel := fresh_channel reliable no_input |} in
  let stream := {| Response_Header := {| E := None; C := true |}; Value := Nil;
                   Channel := fresh_channel reliable (reading [IntValue 1; IntValue 2]) |} in
  let caller := {| answer := fun _ _ _ => (stream, BoolValue true, None); made := [] |} in
  exists resp' call' caller',
    InteropService_Stream 3 (fresh_responder (fails_at 0 EOF)) call caller =
      Some (resp', call', caller', Some stream) /\
    resp' = snd (respond [BoolValue true] true (fresh_responder (fails_at 0 EOF))) /\
    close_attempted (skipn 0 (log (ch resp'))) = false.
Proof.
  cbv zeta.
  apply (Stream_leaves_open_on_Continue_failure (fresh_responder (fails_at 0 EOF))
           {| Call_Header := {| CallHeader_S := "Stream" |};
              Decoder := reading [StringValue "go"];
              Call_Channel := fresh_channel reliable no_input |}
           {| answer := fun _ _ _ =>
                ({| Response_Header := {| E := None; C := true |}; Value := Nil;
                    Channel := fresh_channel reliable (reading [IntValue 1; IntValue 2]) |},
                 BoolValue true, None);
              made := [] |}
           3 (StringValue "go") (BoolValue true)
           {| Response_Header := {| E := None; C := true |}; Value := Nil;
              Channel := fresh_channel reliable (reading [IntValue 1; IntValue 2]) |}
           0 EOF).
  - reflexivity.
  - reflexivity.
  - lia.
  - intros j Hj. lia.
  - reflexivity.
Defined.

(** *** Both ends of a stream *)

Lemma fits_any (v : any) : fits TAny v = true.
Proof. reflexivity. Qed.

(** X15. [Stream] on the responding side and [ReceiveNotify] on the calling
    side fit together.  Let [Stream] run as in X13 on a channel not written
    before, and let the calling side decode what was written, in order, and
    meet the end of the stream after it.  Once the header and the first
    reply are read, [ReceiveNotify] with a context that stays live delivers
    exactly the values of the callback's stream, in order, closes its output
    and returns the end-of-stream error. *)
Theorem Stream_then_ReceiveNotify
  (resp resp' : responder) (call call' : Call) (caller caller' : Caller)
  (fuel fuel' : nat) (p ret : any) (stream : Response) (stream' : option Response)
  (vs : list any) (e : goerror)
  (ctx : Context) (back : Response) (c : chan any) :
  log (ch resp) = [] ->
  argument call TAny p ->
  answers caller "StreamCallback" p (stream, ret, None) ->
  yields stream vs ->
  received stream (length vs) = inl e ->
  next_ok (2 + length vs) resp ->
  length vs < fuel ->
  InteropService_Stream fuel resp call caller = Some (resp', call', caller', stream') ->
  input (rd (Channel back)) = input (reading (wire (log (ch resp')))) ->
  rpos (rd (Channel back)) = 2 ->
  (forall i, cancelled ctx i = false) ->
  chan_closed c = false ->
  length vs < fuel' ->
  exists back',
    ReceiveNotify any (fun v => inr v) fuel' ctx back c =
      Some (Returns (Some EOF), back', {| items := items c ++ vs; chan_closed := true |}).
Proof.
  intros Hfresh Hp Ha Hy He Hok Hfuel Hrun Hin Hpos Hlive Hopen Hfuel'.
  destruct (Stream_runs resp call caller fuel p ret stream vs e Hp Ha Hy He Hok Hfuel)
    as (r2 & c2 & k2 & s2 & Hrun2 & _ & Hl).
  rewrite Hrun in Hrun2. injection Hrun2 as -> _ _ _.
  assert (Hw : exists h v0, wire (log (ch r2)) = h :: v0 :: vs).
  { rewrite Hl, Hfresh. cbn [app]. rewrite wire_app, wire_sent. unfold sends.
    exists (HeaderValue (reply_header (header resp) [ret] true)).
    destruct ret; eexists; cbn [replies app wire]; now rewrite app_nil_r. }
  destruct Hw as (h & v0 & Hw). rewrite Hw in Hin.
  assert (Hrecv : forall i, received back i =
                            match nth_error vs i with
                            | Some v => inr v
                            | None => inl EOF
                            end).
  { intros i. unfold received. rewrite Hin, Hpos. cbn [reading input Nat.add nth_error].
    destruct (nth_error vs i) as [v|]; [now rewrite fits_any | reflexivity]. }
  destruct c as [its closed]. cbn in Hopen. subst closed.
  destruct (loop_returns any (fun v => inr v) vs ctx back its (Some EOF)) with (fuel := fuel')
    as (back1 & Hloop & _ & _).
  - intros i vv Hi. exists vv. rewrite Hrecv, Hi, Hlive. repeat split.
  - left. exists EOF. split; [|reflexivity].
    rewrite Hrecv. now rewrite (proj2 (nth_error_None vs (length vs)) (le_n _)).
  - exact Hfuel'.
  - unfold ReceiveNotify. rewrite Hloop. cbn. eexists. reflexivity.
Qed.

Lemma Stream_then_ReceiveNotify_witness :
  exists back',
    ReceiveNotify any (fun v => inr v) 3
      {| done := fun _ => false; polls := 0 |}
      {| Response_Header := {| E := None; C := true |}; Value := BoolValue true;
         Channel := fresh_channel reliable
           {| input := input (reading [HeaderValue {| E := None; C := true |};
                                       BoolValue true; IntValue 1; IntValue 2]);
              rpos := 2; calls := [THeader; TAny] |} |}
      {| items := []; chan_closed := false |} =
    Some (Returns (Some EOF), back',
          {| items := [IntValue 1; IntValue 2]; chan_closed := true |}).
Proof.
  cbv zeta.
  refine (Stream_then_ReceiveNotify (fresh_responder reliable) _
           {| Call_Header := {| CallHeader_S := "Stream" |};
              Decoder := reading [StringValue "go"];
              Call_Channel := fresh_channel reliable no_input |} _
           {| answer := fun _ _ _ =>
                ({| Response_Header := {| E := None; C := true |}; Value := Nil;
                    Channel := fresh_channel reliable (reading [IntValue 1; IntValue 2]) |},
                 BoolValue true, None);
              made := [] |} _
           3 3 (StringValue "go") (BoolValue true)
           {| Response_Header := {| E := None; C := true |}; Value := Nil;
              Channel := fresh_channel reliable (reading [IntValue 1; IntValue 2]) |}
           _ [IntValue 1; IntValue 2] EOF
           {| done := fun _ => false; polls := 0 |}
           {| Response_Header := {| E := None; C := true |}; Value := BoolValue true;
              Channel := fresh_channel reliable
                {| input := input (reading [HeaderValue {| E := None; C := true |};
                                            BoolValue true; IntValue 1; IntValue 2]);
                   rpos := 2; calls := [THeader; TAny] |} |}
           {| items := []; chan_closed := false |}
           eq_refl eq_refl eq_refl _ eq_refl _ _ eq_refl eq_refl eq_refl
           (fun _ => eq_refl) eq_refl _).
  - intros [|[|i]] v Hi; cbn in Hi.
    + injection Hi as <-. reflexivity.
    + injection Hi as <-. reflexivity.
    + destruct i; discriminate.
  - intros j _. reflexivity.
  - simpl. lia.
  - simpl. lia.
Defined.

End rpc.
